(** * Trace log of the record/replay debugger (src/trace.h)

    Shallow embedding of the trace persistence interface declared in
    [trace.h].  The header fixes the data model ([trace_frame],
    [mmapped_file], [user_regs_struct], the [uint32_t] order counters, the
    signed [ssize_t] length of [record_data]); the bodies of the recording
    and replaying functions live in [trace.cc], which is not among the
    sources modelled here, so those bodies are modelled from the specification
    and each such definition says so in its doc comment.

    Conventions: fatal conditions ("succeed or don't return", aborts) are
    [None] of an [option]; integers are [Z]; bytes are [Byte.byte]; each
    stream of the trace directory is a list, appended on recording and
    consumed from the front on replay.  The build modelled is the default
    one, without [HPC_ENABLE_EXTRA_PERF_COUNTERS]. *)

From Stdlib Require Import ZArith NArith List Lia Bool Strings.Byte.
Import ListNotations.
Open Scope Z_scope.

(** ** Data model *)

(** [struct user_regs_struct] (x86-64): the full general purpose register
    file, 27 machine words, in the kernel's field order. *)
Record user_regs_struct := {
  r15 : Z; r14 : Z; r13 : Z; r12 : Z; rbp : Z; rbx : Z; r11 : Z; r10 : Z;
  r9 : Z; r8 : Z; rax : Z; rcx : Z; rdx : Z; rsi : Z; rdi : Z;
  orig_rax : Z; rip : Z; cs : Z; eflags : Z; rsp : Z; ss : Z;
  fs_base : Z; gs_base : Z; ds : Z; es : Z; fs : Z; gs : Z
}.

(** [EncodedEvent]: the opaque, fixed-size token of event.h. *)
Definition EncodedEvent := Z.

(** [struct trace_frame] (trace.h lines 36-54). *)
Record trace_frame := {
  global_time : Z;           (* uint32_t *)
  thread_time : Z;           (* uint32_t *)
  tid : Z;                   (* pid_t *)
  ev : EncodedEvent;
  rbc : Z;                   (* int64_t *)
  recorded_regs : user_regs_struct
}.

(** [struct stat]: the file identity fields kept in a mapping record. *)
Record stat_t := {
  st_dev : Z; st_ino : Z; st_mode : Z; st_size : Z; st_mtime : Z
}.

(** [struct mmapped_file] (trace.h lines 58-72). *)
Record mmapped_file := {
  time : Z;                  (* uint32_t *)
  mf_tid : Z;                (* int tid *)
  copied : Z;                (* int, nonzero when the region was saved *)
  filename : list Byte.byte; (* char[PATH_MAX] *)
  stat : stat_t;
  start : Z;                 (* void* *)
  end_ : Z                   (* void* *)
}.

(** The [Task] collaborator, seen from the trace core: its thread id, its
    retired-branch counter and its current register file. *)
Record Task := {
  task_tid : Z;
  task_rbc : Z;
  task_regs : user_regs_struct
}.

Definition UINT32_MAX : Z := 2 ^ 32 - 1.
Definition SSIZE_MIN : Z := - 2 ^ 63.
Definition SSIZE_MAX : Z := 2 ^ 63 - 1.
Definition is_ssize_t (n : Z) : bool := (SSIZE_MIN <=? n) && (n <=? SSIZE_MAX).

(** ** On-disk layout of the frame stream

    A frame is written as its fixed-size struct image, one word per field:
    the event-info span ([global_time] .. [ev]) followed by the exec-info
    span ([rbc], [recorded_regs]).  A stream is a list of words. *)

Definition encode_regs (r : user_regs_struct) : list Z :=
  [r15 r; r14 r; r13 r; r12 r; rbp r; rbx r; r11 r; r10 r;
   r9 r; r8 r; rax r; rcx r; rdx r; rsi r; rdi r;
   orig_rax r; rip r; cs r; eflags r; rsp r; ss r;
   fs_base r; gs_base r; ds r; es r; fs r; gs r].

Definition decode_regs (ws : list Z) : option (user_regs_struct * list Z) :=
  match ws with
  | a15 :: a14 :: a13 :: a12 :: abp :: abx :: a11 :: a10 :: a9 :: a8
    :: aax :: acx :: adx :: asi :: adi :: aorig :: aip :: acs :: afl
    :: asp :: ass :: afsb :: agsb :: ads :: aes :: afs :: ags :: rest =>
      Some ({| r15 := a15; r14 := a14; r13 := a13; r12 := a12; rbp := abp;
               rbx := abx; r11 := a11; r10 := a10; r9 := a9; r8 := a8;
               rax := aax; rcx := acx; rdx := adx; rsi := asi; rdi := adi;
               orig_rax := aorig; rip := aip; cs := acs; eflags := afl;
               rsp := asp; ss := ass; fs_base := afsb; gs_base := agsb;
               ds := ads; es := aes; fs := afs; gs := ags |}, rest)
  | _ => None
  end.

Definition encode_frame (f : trace_frame) : list Z :=
  [global_time f; thread_time f; tid f; ev f; rbc f]
    ++ encode_regs (recorded_regs f).

Definition encode_frames (fs : list trace_frame) : list Z :=
  flat_map encode_frame fs.

(** Words in one frame image: five order/identity/counter fields and the
    27 registers. *)
Definition FRAME_WORDS : nat := 32.

(** What reading one record off the front of the frame stream finds. *)
Inductive frame_read :=
  | FrameAt (f : trace_frame) (rest : list Z)
  | EndOfStream
  | Truncated.

Definition decode_frame (ws : list Z) : frame_read :=
  match ws with
  | [] => EndOfStream
  | g :: th :: t :: e :: c :: rest =>
      match decode_regs rest with
      | Some (regs, rest') =>
          FrameAt {| global_time := g; thread_time := th; tid := t; ev := e;
                     rbc := c; recorded_regs := regs |} rest'
      | None => Truncated
      end
  | _ => Truncated
  end.


(** ** Raw-data records *)

(** One block of the raw-data stream: the global time of the frame it
    belongs to, the tracee address it was read from, its [size_t] length
    and its bytes. *)
Record raw_record := {
  raw_global_time : Z;
  raw_addr : Z;
  raw_size : Z;
  raw_bytes : list Byte.byte
}.

Section Trace.

(** The encoding the event collaborator gives to the trace-termination
    event [EV_TRACE_TERMINATION]. *)
Variable EV_TRACE_TERMINATION : EncodedEvent.

(** ** GlobalSequencer *)

(** Modelled from the spec: the global-time counter of trace.cc (spec
    4.1).  [next] hands out one more than the last value handed out; the
    counter is stored in [uint32_t] fields and overflow is fatal. *)
Definition next_global_time (g : Z) : option Z :=
  if g <? UINT32_MAX then Some (g + 1) else None.

(** ** TraceWriter *)

(** The recording side's state: the sequencer, the per-thread counters,
    and the three append-only streams (frames, raw data, mapping records). *)
Record trace_writer := {
  w_global_time : Z;
  w_thread_time : Z -> Z;
  w_events : list Z;
  w_raw : list raw_record;
  w_mmaps : list mmapped_file
}.

(** Modelled from the spec: [rec_init_trace_files] opens fresh, empty
    streams; no time has been handed out yet. *)
Definition rec_init_trace_files : trace_writer :=
  {| w_global_time := 0; w_thread_time := fun _ => 0;
     w_events := []; w_raw := []; w_mmaps := [] |}.

Definition update_counter (c : Z -> Z) (k v : Z) : Z -> Z :=
  fun k' => if Z.eqb k' k then v else c k'.

(** Modelled from the spec: the common part of [record_event] and
    [record_trace_termination_event]: stamp the global time from the
    sequencer and the thread time from the per-thread counter of [t_id],
    then append the frame image to the frame stream. *)
Definition append_frame (w : trace_writer) (t_id c : Z)
    (regs : user_regs_struct) (e : EncodedEvent) : option trace_writer :=
  match next_global_time (w_global_time w) with
  | None => None
  | Some g =>
      let th := w_thread_time w t_id + 1 in
      let f := {| global_time := g; thread_time := th; tid := t_id; ev := e;
                  rbc := c; recorded_regs := regs |} in
      Some {| w_global_time := g;
              w_thread_time := update_counter (w_thread_time w) t_id th;
              w_events := w_events w ++ encode_frame f;
              w_raw := w_raw w; w_mmaps := w_mmaps w |}
  end.

(** Modelled from the spec: [record_event(t, ev)] captures [t]'s registers
    and counter and appends a stamped frame. *)
Definition record_event (w : trace_writer) (t : Task) (e : EncodedEvent)
    : option trace_writer :=
  append_frame w (task_tid t) (task_rbc t) (task_regs t) e.

Definition zero_regs : user_regs_struct :=
  {| r15 := 0; r14 := 0; r13 := 0; r12 := 0; rbp := 0; rbx := 0; r11 := 0;
     r10 := 0; r9 := 0; r8 := 0; rax := 0; rcx := 0; rdx := 0; rsi := 0;
     rdi := 0; orig_rax := 0; rip := 0; cs := 0; eflags := 0; rsp := 0;
     ss := 0; fs_base := 0; gs_base := 0; ds := 0; es := 0; fs := 0;
     gs := 0 |}.

(** Modelled from the spec: [record_trace_termination_event(t)] appends a
    frame carrying the termination event; [t] may be [nullptr], in which
    case the frame belongs to no thread (tid 0, zero counter and
    registers). *)
Definition record_trace_termination_event (w : trace_writer)
    (t : option Task) : option trace_writer :=
  match t with
  | Some t => append_frame w (task_tid t) (task_rbc t) (task_regs t)
                EV_TRACE_TERMINATION
  | None => append_frame w 0 0 zero_regs EV_TRACE_TERMINATION
  end.

(** Modelled from the spec: [record_data(t, addr, len, buf)] appends a
    raw-data block of [len] bytes of [buf], tagged with [addr] and with
    the global time of the frame just recorded.  The [ssize_t] length is
    passed on as the [size_t] byte count, [(size_t)len]; reading more
    bytes than [buf] holds is undefined ([None]). *)
Definition record_data (w : trace_writer) (t : Task) (addr len : Z)
    (buf : list Byte.byte) : option trace_writer :=
  let n := len mod 2 ^ 64 in
  if n <=? Z.of_nat (length buf) then
    Some {| w_global_time := w_global_time w;
            w_thread_time := w_thread_time w;
            w_events := w_events w;
            w_raw := w_raw w ++ [{| raw_global_time := w_global_time w;
                                    raw_addr := addr; raw_size := n;
                                    raw_bytes := firstn (Z.to_nat n) buf |}];
            w_mmaps := w_mmaps w |}
  else None.

(** Modelled from the spec: [record_mmapped_file_stats(file)] appends the
    mapping record to its own stream. *)
Definition record_mmapped_file_stats (w : trace_writer) (file : mmapped_file)
    : trace_writer :=
  {| w_global_time := w_global_time w; w_thread_time := w_thread_time w;
     w_events := w_events w; w_raw := w_raw w;
     w_mmaps := w_mmaps w ++ [file] |}.

(** A run of [record_event] calls, in order; fatal if any call is. *)
Fixpoint record_events (w : trace_writer) (evs : list (Task * EncodedEvent))
    : option trace_writer :=
  match evs with
  | [] => Some w
  | (t, e) :: evs' =>
      match record_event w t e with
      | Some w' => record_events w' evs'
      | None => None
      end
  end.

(** ** TraceReader *)

(** The replaying side's state: what is left of each stream, the global
    time of the frame last consumed, and whether the frame stream is
    exhausted (spec 4.3: end of stream reported, or a termination frame
    consumed; no read is valid afterwards). *)
Record trace_reader := {
  r_events : list Z;
  r_raw : list raw_record;
  r_mmaps : list mmapped_file;
  r_global_time : Z;
  r_exhausted : bool
}.

(** Modelled from the spec: [rep_init_trace_files] opens the streams a
    closed recording session left behind. *)
Definition rep_init_trace_files (w : trace_writer) : trace_reader :=
  {| r_events := w_events w; r_raw := w_raw w; r_mmaps := w_mmaps w;
     r_global_time := 0; r_exhausted := false |}.

Definition is_termination_frame (f : trace_frame) : bool :=
  Z.eqb (ev f) EV_TRACE_TERMINATION.

(** The reader after consuming frame [f], whose image was followed by
    [rest] in the frame stream. *)
Definition consume_frame (r : trace_reader) (f : trace_frame) (rest : list Z)
    : trace_reader :=
  {| r_events := rest; r_raw := r_raw r; r_mmaps := r_mmaps r;
     r_global_time := global_time f;
     r_exhausted := is_termination_frame f |}.

(** Modelled from the spec: [read_next_trace]: "succeed or don't return";
    end of stream, a truncated record or a read after exhaustion is fatal. *)
Definition read_next_trace (r : trace_reader)
    : option (trace_frame * trace_reader) :=
  if r_exhausted r then None else
  match decode_frame (r_events r) with
  | FrameAt f rest => Some (f, consume_frame r f rest)
  | EndOfStream | Truncated => None
  end.

(** Modelled from the spec: [try_read_next_trace]: like [read_next_trace],
    but a clean end of stream is reported as "not read" ([None] frame, the
    zero return) and exhausts the reader; a truncated record is fatal. *)
Definition try_read_next_trace (r : trace_reader)
    : option (option trace_frame * trace_reader) :=
  if r_exhausted r then None else
  match decode_frame (r_events r) with
  | FrameAt f rest => Some (Some f, consume_frame r f rest)
  | EndOfStream =>
      Some (None, {| r_events := r_events r; r_raw := r_raw r;
                     r_mmaps := r_mmaps r; r_global_time := r_global_time r;
                     r_exhausted := true |})
  | Truncated => None
  end.

(** Modelled from the spec: [peek_next_trace]: the frame the next read
    would return, with the reader left where it was. *)
Definition peek_next_trace (r : trace_reader)
    : option (trace_frame * trace_reader) :=
  if r_exhausted r then None else
  match decode_frame (r_events r) with
  | FrameAt f _ => Some (f, r)
  | EndOfStream | Truncated => None
  end.

(** Modelled from the spec: [get_global_time]: the global time of the
    frame last consumed; the state is returned unchanged. *)
Definition get_global_time (r : trace_reader) : Z * trace_reader :=
  (r_global_time r, r).

(** Result of [read_raw_data_direct]: the return value, the caller's
    buffer afterwards, the [rec_addr] outparam (unwritten: [None]) and the
    reader afterwards. *)
Record direct_read := {
  dr_ret : Z;
  dr_buf : list Byte.byte;
  dr_rec_addr : option Z;
  dr_reader : trace_reader
}.

(** Modelled from the spec: [read_raw_data_direct(trace, buf, buf_size,
    rec_addr)]: copy the next raw-data block into [buf] when it belongs to
    [trace] (same global time), fits in [buf_size] bytes and was read in
    full; return its size.  Otherwise return -1 and leave everything as it
    was. *)
Definition read_raw_data_direct (r : trace_reader) (trace : trace_frame)
    (buf : list Byte.byte) (buf_size : Z) : direct_read :=
  let fail := {| dr_ret := -1; dr_buf := buf; dr_rec_addr := None;
                 dr_reader := r |} in
  match r_raw r with
  | [] => fail
  | d :: rest =>
      if (raw_global_time d =? global_time trace)
         && (raw_size d <=? buf_size)
         && (Z.of_nat (length (raw_bytes d)) =? raw_size d)
      then {| dr_ret := raw_size d;
              dr_buf := raw_bytes d ++ skipn (length (raw_bytes d)) buf;
              dr_rec_addr := Some (raw_addr d);
              dr_reader := {| r_events := r_events r; r_raw := rest;
                              r_mmaps := r_mmaps r;
                              r_global_time := r_global_time r;
                              r_exhausted := r_exhausted r |} |}
      else fail
  end.

(** Modelled from the spec: [read_raw_data(trace, size_ptr, addr)]:
    return a copy of the next raw-data block, its size and the tracee
    address it was read from, consuming it; the block must belong to
    [trace] and have been read in full, otherwise the call is fatal. *)
Definition read_raw_data (r : trace_reader) (trace : trace_frame)
    : option (list Byte.byte * Z * Z * trace_reader) :=
  match r_raw r with
  | [] => None
  | d :: rest =>
      if (raw_global_time d =? global_time trace)
         && (Z.of_nat (length (raw_bytes d)) =? raw_size d)
      then Some (raw_bytes d, raw_size d, raw_addr d,
                 {| r_events := r_events r; r_raw := rest;
                    r_mmaps := r_mmaps r; r_global_time := r_global_time r;
                    r_exhausted := r_exhausted r |})
      else None
  end.

(** Modelled from the spec: [read_next_mmapped_file_stats]: the next
    mapping record, in recorded order; fatal when there is none. *)
Definition read_next_mmapped_file_stats (r : trace_reader)
    : option (mmapped_file * trace_reader) :=
  match r_mmaps r with
  | [] => None
  | m :: rest =>
      Some (m, {| r_events := r_events r; r_raw := r_raw r; r_mmaps := rest;
                  r_global_time := r_global_time r;
                  r_exhausted := r_exhausted r |})
  end.

(** [n] strict reads in a row, with the frames they return. *)
Fixpoint read_frames (r : trace_reader) (n : nat)
    : option (list trace_frame * trace_reader) :=
  match n with
  | O => Some ([], r)
  | S n' =>
      match read_next_trace r with
      | Some (f, r') =>
          match read_frames r' n' with
          | Some (fs, r'') => Some (f :: fs, r'')
          | None => None
          end
      | None => None
      end
  end.

End Trace.

(** ** Reference descriptions used in the statements *)

(** The thread times a sequence of frames of the given thread ids should
    carry: each frame's is one more than the number of earlier frames of
    the same thread. *)
Fixpoint thread_times_after (seen : list Z) (ts : list Z) : list Z :=
  match ts with
  | [] => []
  | t :: ts' =>
      (Z.of_nat (count_occ Z.eq_dec seen t) + 1)
        :: thread_times_after (t :: seen) ts'
  end.

Definition thread_times (ts : list Z) : list Z := thread_times_after [] ts.

(** The frames a run of [record_event] calls stamps, starting after global
    time [g] with the earlier frames' thread ids [seen]. *)
Fixpoint stamped_frames (g : Z) (seen : list Z)
    (evs : list (Task * EncodedEvent)) : list trace_frame :=
  match evs with
  | [] => []
  | (t, e) :: evs' =>
      {| global_time := g + 1;
         thread_time := Z.of_nat (count_occ Z.eq_dec seen (task_tid t)) + 1;
         tid := task_tid t; ev := e; rbc := task_rbc t;
         recorded_regs := task_regs t |}
        :: stamped_frames (g + 1) (task_tid t :: seen) evs'
  end.

(** ** Reachable recording states *)

(** One writer operation of the recording side. *)
Inductive writer_step (EV : EncodedEvent) : trace_writer -> trace_writer -> Prop :=
  | step_record_event w t e w' :
      record_event w t e = Some w' -> writer_step EV w w'
  | step_record_termination w ot w' :
      record_trace_termination_event EV w ot = Some w' -> writer_step EV w w'
  | step_record_data w t addr len buf w' :
      record_data w t addr len buf = Some w' -> writer_step EV w w'
  | step_record_mmapped_file w file :
      writer_step EV w (record_mmapped_file_stats w file).

(** The writer states a recording session can reach from fresh files. *)
Inductive reachable (EV : EncodedEvent) : trace_writer -> Prop :=
  | reachable_init : reachable EV rec_init_trace_files
  | reachable_step w w' : reachable EV w -> writer_step EV w w' -> reachable EV w'.

(** The ordering invariant of the spec's data model (section 3). *)
Definition trace_ordered (fs : list trace_frame) : Prop :=
  ForallOrdPairs (fun a b => global_time a <> global_time b) fs /\
  ForallOrdPairs (fun a b => global_time a <= global_time b) fs /\
  ForallOrdPairs (fun a b => tid a = tid b -> thread_time a < thread_time b) fs.

(** What the writer keeps true of the frames it has written, given its
    sequencer and per-thread counters. *)
Definition writer_inv (w : trace_writer) : Prop :=
  exists fs,
    w_events w = encode_frames fs /\
    Z.of_nat (length fs) = w_global_time w /\
    ForallOrdPairs (fun a b => global_time a < global_time b) fs /\
    ForallOrdPairs (fun a b => tid a = tid b -> thread_time a < thread_time b) fs /\
    Forall (fun f => 1 <= global_time f <= w_global_time w /\
                     1 <= thread_time f <= w_thread_time w (tid f)) fs /\
    w_global_time w <= UINT32_MAX /\
    (forall t, 0 <= w_thread_time w t <= w_global_time w).

(** [n] lenient reads in a row, with what each of them reported. *)
Fixpoint try_read_frames (EV : EncodedEvent) (r : trace_reader) (n : nat)
    : option (list (option trace_frame) * trace_reader) :=
  match n with
  | O => Some ([], r)
  | S n' =>
      match try_read_next_trace EV r with
      | Some (o, r') =>
          match try_read_frames EV r' n' with
          | Some (os, r'') => Some (o :: os, r'')
          | None => None
          end
      | None => None
      end
  end.

(** [n] reads of the mapping-record stream in a row. *)
Fixpoint read_mmapped_files (r : trace_reader) (n : nat)
    : option (list mmapped_file * trace_reader) :=
  match n with
  | O => Some ([], r)
  | S n' =>
      match read_next_mmapped_file_stats r with
      | Some (m, r') =>
          match read_mmapped_files r' n' with
          | Some (ms, r'') => Some (m :: ms, r'')
          | None => None
          end
      | None => None
      end
  end.

(** ** Sessions as sequences of interface calls *)

(** A call of the recording interface. *)
Inductive writer_op :=
  | op_record_event (t : Task) (e : EncodedEvent)
  | op_record_termination (t : option Task)
  | op_record_data (t : Task) (addr len : Z) (buf : list Byte.byte)
  | op_record_mmapped_file (file : mmapped_file).

Definition run_writer_op (EV : EncodedEvent) (w : trace_writer)
    (op : writer_op) : option trace_writer :=
  match op with
  | op_record_event t e => record_event w t e
  | op_record_termination t => record_trace_termination_event EV w t
  | op_record_data t addr len buf => record_data w t addr len buf
  | op_record_mmapped_file file => Some (record_mmapped_file_stats w file)
  end.

(** The calls of a recording session in order; fatal if any call is. *)
Fixpoint run_writer_ops (EV : EncodedEvent) (w : trace_writer)
    (ops : list writer_op) : option trace_writer :=
  match ops with
  | [] => Some w
  | op :: ops' =>
      match run_writer_op EV w op with
      | Some w' => run_writer_ops EV w' ops'
      | None => None
      end
  end.

(** The mapping records a session hands to [record_mmapped_file_stats],
    in call order. *)
Definition mmaps_of (ops : list writer_op) : list mmapped_file :=
  flat_map (fun op => match op with
                      | op_record_mmapped_file file => [file]
                      | _ => []
                      end) ops.

(** A call of the replaying interface. *)
Inductive reader_op :=
  | op_read_next_trace
  | op_try_read_next_trace
  | op_peek_next_trace
  | op_read_raw_data (trace : trace_frame)
  | op_read_raw_data_direct (trace : trace_frame) (buf : list Byte.byte)
      (buf_size : Z)
  | op_read_next_mmapped_file_stats.

(** One replaying call: the mapping records it returned (at most one) and
    the reader afterwards; [None] when the call is fatal.  A failed
    [read_raw_data_direct] returns -1 to its caller and is not fatal. *)
Definition run_reader_op (EV : EncodedEvent) (r : trace_reader)
    (op : reader_op) : option (list mmapped_file * trace_reader) :=
  match op with
  | op_read_next_trace =>
      option_map (fun p => ([], snd p)) (read_next_trace EV r)
  | op_try_read_next_trace =>
      option_map (fun p => ([], snd p)) (try_read_next_trace EV r)
  | op_peek_next_trace =>
      option_map (fun p => ([], snd p)) (peek_next_trace r)
  | op_read_raw_data trace =>
      option_map (fun p => ([], snd p)) (read_raw_data r trace)
  | op_read_raw_data_direct trace buf buf_size =>
      Some ([], dr_reader (read_raw_data_direct r trace buf buf_size))
  | op_read_next_mmapped_file_stats =>
      option_map (fun p => ([fst p], snd p)) (read_next_mmapped_file_stats r)
  end.

(** The calls of a replaying session in order, with every mapping record
    they returned. *)
Fixpoint run_reader_ops (EV : EncodedEvent) (r : trace_reader)
    (ops : list reader_op) : option (list mmapped_file * trace_reader) :=
  match ops with
  | [] => Some ([], r)
  | op :: ops' =>
      match run_reader_op EV r op with
      | Some (ms, r') =>
          match run_reader_ops EV r' ops' with
          | Some (ms', r'') => Some (ms ++ ms', r'')
          | None => None
          end
      | None => None
      end
  end.

(** ** Invariants of the recorded streams *)

(** Frames sit at the position their global time names. *)
Definition writer_positions (w : trace_writer) : Prop :=
  exists fs,
    w_events w = encode_frames fs /\
    map global_time fs = map Z.of_nat (seq 1 (length fs)) /\
    w_global_time w = Z.of_nat (length fs).

(** The raw-data stream a recording session writes: blocks in
    non-decreasing frame order, none tagged with a frame not yet
    recorded, each holding exactly as many bytes as its size says. *)
Definition raw_stream_ok (w : trace_writer) : Prop :=
  ForallOrdPairs (fun a b => raw_global_time a <= raw_global_time b) (w_raw w) /\
  Forall (fun d => 0 <= raw_global_time d <= w_global_time w /\
                   Z.of_nat (length (raw_bytes d)) = raw_size d) (w_raw w) /\
  0 <= w_global_time w.

(** ** Concrete scenarios *)

(** Thread 42 of the spec's scenario, with an arbitrary register file. *)
Definition task42 : Task :=
  {| task_tid := 42; task_rbc := 1000;
     task_regs := {| r15 := 15; r14 := 14; r13 := 13; r12 := 12; rbp := 6;
                     rbx := 3; r11 := 11; r10 := 10; r9 := 9; r8 := 8;
                     rax := 60; rcx := 2; rdx := 4; rsi := 5; rdi := 7;
                     orig_rax := 60; rip := 4194304; cs := 51;
                     eflags := 582; rsp := 140737488346112; ss := 43;
                     fs_base := 0; gs_base := 0; ds := 0; es := 0; fs := 0;
                     gs := 0 |} |}.

(** The spec's three-event scenario: system-call entry, system-call exit
    and process exit of thread 42 (tokens 1, 2, 3 stand for the encodings
    the event collaborator gives them; 99 for the termination event). *)
Definition scenario42 : list (Task * EncodedEvent) :=
  [(task42, 1); (task42, 2); (task42, 3)].

Definition EV_TERM_EXAMPLE : EncodedEvent := 99.

(** ** Concrete recording sessions *)

Definition writer_or_fresh (o : option trace_writer) : trace_writer :=
  match o with Some w => w | None => rec_init_trace_files end.

(** The scenario recorded from fresh files, then closed by a termination
    frame recorded with no live thread. *)
Definition scenario42_writer : trace_writer :=
  writer_or_fresh (record_events rec_init_trace_files scenario42).

Definition scenario42_terminated : trace_writer :=
  writer_or_fresh (record_trace_termination_event EV_TERM_EXAMPLE
                     scenario42_writer None).

(** The reader over the scenario's trace, and the frames it holds. *)
Definition scenario42_reader : trace_reader :=
  rep_init_trace_files scenario42_writer.

Definition scenario42_frame (n : Z) : trace_frame :=
  {| global_time := n; thread_time := n; tid := 42; ev := n;
     rbc := task_rbc task42; recorded_regs := task_regs task42 |}.

Definition scenario42_frames : list trace_frame :=
  [scenario42_frame 1; scenario42_frame 2; scenario42_frame 3].

(** The spec's raw-data scenario: one event of thread 42, then a
    4096-byte block read from tracee address 0x400000. *)
Definition byte_pattern (n : nat) : Byte.byte :=
  match Byte.of_N (N.of_nat (Nat.modulo n 256)) with
  | Some b => b
  | None => Byte.x00
  end.

Definition block4096 : list Byte.byte := map byte_pattern (seq 0 4096).

Definition raw_scenario : option trace_writer :=
  match record_event rec_init_trace_files task42 1 with
  | Some w => record_data w task42 4194304 4096 block4096
  | None => None
  end.

Definition raw_scenario_writer : trace_writer := writer_or_fresh raw_scenario.

(** A mapping record that says its region was copied into the trace. *)
Definition copied_region : mmapped_file :=
  {| time := 1; mf_tid := 42; copied := 1; filename := [];
     stat := {| st_dev := 0; st_ino := 0; st_mode := 0; st_size := 4096;
                st_mtime := 0 |};
     start := 4194304; end_ := 4198400 |}.

Definition copied_region_writer : trace_writer :=
  record_mmapped_file_stats rec_init_trace_files copied_region.

(** A mapping record of a file mapped without copying. *)
Definition mapped_lib : mmapped_file :=
  {| time := 2; mf_tid := 42; copied := 0;
     filename := [Byte.x2f; Byte.x6c; Byte.x69; Byte.x62];
     stat := {| st_dev := 2049; st_ino := 131; st_mode := 33261;
                st_size := 8192; st_mtime := 1700000000 |};
     start := 8388608; end_ := 8396800 |}.

(** A session interleaving mapping records with frames and raw data. *)
Definition mmap_session_ops : list writer_op :=
  [op_record_event task42 1; op_record_mmapped_file copied_region;
   op_record_data task42 4194304 4096 block4096; op_record_event task42 2;
   op_record_mmapped_file mapped_lib; op_record_termination None].

Definition mmap_session_writer : trace_writer :=
  writer_or_fresh
    (run_writer_ops EV_TERM_EXAMPLE rec_init_trace_files mmap_session_ops).

(** Its replay: frames, raw data and a mapping record read interleaved. *)
Definition mmap_session_reads : list reader_op :=
  [op_read_next_trace;
   op_read_raw_data_direct (scenario42_frame 1) (repeat Byte.x00 4096) 4096;
   op_read_next_mmapped_file_stats; op_peek_next_trace; op_read_next_trace;
   op_read_next_trace].

Definition mmap_session_replay : list mmapped_file * trace_reader :=
  match run_reader_ops EV_TERM_EXAMPLE (rep_init_trace_files mmap_session_writer)
          mmap_session_reads with
  | Some p => p
  | None => ([], rep_init_trace_files mmap_session_writer)
  end.

(** ** Frame stream lemmas *)

Lemma decode_encode_regs (r : user_regs_struct) (rest : list Z) :
  decode_regs (encode_regs r ++ rest) = Some (r, rest).
Proof. destruct r; reflexivity. Qed.

Lemma decode_encode_frame (f : trace_frame) (rest : list Z) :
  decode_frame (encode_frame f ++ rest) = FrameAt f rest.
Proof.
  destruct f as [g th t e c r]; destruct r; reflexivity.
Qed.

Lemma encode_frames_cons (f : trace_frame) (fs : list trace_frame) :
  encode_frames (f :: fs) = encode_frame f ++ encode_frames fs.
Proof. reflexivity. Qed.

Lemma encode_frames_app (fs1 fs2 : list trace_frame) :
  encode_frames (fs1 ++ fs2) = encode_frames fs1 ++ encode_frames fs2.
Proof. unfold encode_frames; apply flat_map_app. Qed.

Lemma decode_encode_frames_cons (f : trace_frame) (fs : list trace_frame)
    (rest : list Z) :
  decode_frame (encode_frames (f :: fs) ++ rest)
  = FrameAt f (encode_frames fs ++ rest).
Proof.
  rewrite encode_frames_cons, <- app_assoc; apply decode_encode_frame.
Qed.

Lemma last_default_irrel {A : Type} (l : list A) (d d' : A) :
  l <> [] -> last l d = last l d'.
Proof.
  induction l as [|a l IH]; intros Hne; [congruence|].
  destruct l as [|b l]; [reflexivity|].
  simpl; apply IH; discriminate.
Qed.

Section Streams.

Variable EV_TRACE_TERMINATION : EncodedEvent.

(** Strict reads over a stream made of whole frame images, none of them a
    termination frame, return exactly those frames. *)
Lemma read_frames_encoded (fs : list trace_frame) (r : trace_reader)
    (rest : list Z) :
  r_events r = encode_frames fs ++ rest ->
  r_exhausted r = false ->
  Forall (fun f => is_termination_frame EV_TRACE_TERMINATION f = false) fs ->
  exists r',
    read_frames EV_TRACE_TERMINATION r (length fs) = Some (fs, r') /\
    r_events r' = rest /\ r_exhausted r' = false /\
    r_raw r' = r_raw r /\ r_mmaps r' = r_mmaps r /\
    r_global_time r' = last (map global_time fs) (r_global_time r).
Proof.
  revert r; induction fs as [|f fs IH]; intros r Hev Hex Hterm.
  - exists r; simpl in *; repeat split; auto.
  - inversion Hterm as [|? ? Hf Hfs]; subst.
    simpl read_frames; unfold read_next_trace.
    rewrite Hex, Hev, decode_encode_frames_cons.
    destruct (IH (consume_frame EV_TRACE_TERMINATION r f (encode_frames fs ++ rest)))
      as [r' (Hr & H1 & H2 & H3 & H4 & H5)]; simpl; auto.
    rewrite Hr; exists r'; repeat split; auto.
    rewrite H5; simpl.
    destruct fs as [|f' fs']; [reflexivity|].
    apply last_default_irrel; discriminate.
Qed.

End Streams.

(** ** Writer lemmas *)

(** A run of [record_event] calls from a writer whose counters agree with
    the thread ids [seen] appends exactly [stamped_frames]. *)
Lemma record_events_stamps (evs : list (Task * EncodedEvent)) :
  forall (w : trace_writer) (seen : list Z),
    (forall t, w_thread_time w t = Z.of_nat (count_occ Z.eq_dec seen t)) ->
    0 <= w_global_time w ->
    w_global_time w + Z.of_nat (length evs) <= UINT32_MAX ->
    exists w',
      record_events w evs = Some w' /\
      w_events w' = w_events w ++ encode_frames
                      (stamped_frames (w_global_time w) seen evs) /\
      w_global_time w' = w_global_time w + Z.of_nat (length evs) /\
      (forall t, w_thread_time w' t =
         Z.of_nat (count_occ Z.eq_dec
                     (rev (map (fun x => task_tid (fst x)) evs) ++ seen) t)) /\
      w_raw w' = w_raw w /\ w_mmaps w' = w_mmaps w.
Proof.
  induction evs as [|[t e] evs IH]; intros w seen Htt Hg0 Hg.
  - exists w; simpl; rewrite app_nil_r, Z.add_0_r; repeat split; auto.
  - simpl in Hg.
    assert (Hnext : next_global_time (w_global_time w)
                    = Some (w_global_time w + 1)).
    { unfold next_global_time; rewrite (proj2 (Z.ltb_lt _ _)); auto; lia. }
    simpl record_events; unfold record_event, append_frame; rewrite Hnext.
    set (w1 := {| w_global_time := _ |}).
    destruct (IH w1 (task_tid t :: seen)) as [w' (Hr & H1 & H2 & H3 & H4 & H5)];
      simpl; try lia.
    { intros t'; unfold update_counter.
      destruct (Z.eqb_spec t' (task_tid t)) as [->|Hne].
      - cbn [count_occ]; destruct Z.eq_dec; [|congruence].
        rewrite Htt; lia.
      - cbn [count_occ]; destruct Z.eq_dec; [congruence|apply Htt]. }
    exists w'; rewrite Hr; repeat split; auto.
    + rewrite H1; unfold w1; cbn [w_events w_global_time stamped_frames].
      rewrite Htt, <- app_assoc; reflexivity.
    + rewrite H2; simpl; lia.
    + intros t'; rewrite H3; simpl; rewrite <- app_assoc; reflexivity.
Qed.

Lemma thread_times_stamped (evs : list (Task * EncodedEvent)) :
  forall g seen,
    map thread_time (stamped_frames g seen evs)
    = thread_times_after seen (map (fun x => task_tid (fst x)) evs).
Proof.
  induction evs as [|[t e] evs IH]; intros g seen; simpl; f_equal; auto.
Qed.

Lemma global_times_stamped (evs : list (Task * EncodedEvent)) :
  forall k seen,
    map global_time (stamped_frames (Z.of_nat k) seen evs)
    = map Z.of_nat (seq (S k) (length evs)).
Proof.
  induction evs as [|[t e] evs IH]; intros k seen; simpl; auto.
  f_equal; [lia|].
  replace (Z.of_nat k + 1) with (Z.of_nat (S k)) by lia; apply IH.
Qed.

Lemma stamped_frames_length (evs : list (Task * EncodedEvent)) :
  forall g seen, length (stamped_frames g seen evs) = length evs.
Proof. induction evs as [|[t e] evs IH]; intros; simpl; auto. Qed.

Ltac stamped_induction evs :=
  induction evs as [|[? ?] ? IH]; intros; simpl; f_equal; auto.

Lemma tids_stamped (evs : list (Task * EncodedEvent)) :
  forall g seen, map tid (stamped_frames g seen evs)
                 = map (fun x => task_tid (fst x)) evs.
Proof. stamped_induction evs. Qed.

Lemma evs_stamped (evs : list (Task * EncodedEvent)) :
  forall g seen, map ev (stamped_frames g seen evs) = map snd evs.
Proof. stamped_induction evs. Qed.

Lemma rbcs_stamped (evs : list (Task * EncodedEvent)) :
  forall g seen, map rbc (stamped_frames g seen evs)
                 = map (fun x => task_rbc (fst x)) evs.
Proof. stamped_induction evs. Qed.

Lemma regs_stamped (evs : list (Task * EncodedEvent)) :
  forall g seen, map recorded_regs (stamped_frames g seen evs)
                 = map (fun x => task_regs (fst x)) evs.
Proof. stamped_induction evs. Qed.

Lemma stamped_not_termination (EV : EncodedEvent)
    (evs : list (Task * EncodedEvent)) (g : Z) (seen : list Z) :
  Forall (fun x => snd x <> EV) evs ->
  Forall (fun f => is_termination_frame EV f = false)
         (stamped_frames g seen evs).
Proof.
  intros H; apply Forall_forall; intros f Hin.
  apply (in_map ev) in Hin; rewrite evs_stamped in Hin.
  apply in_map_iff in Hin as [x [Hx Hin]].
  rewrite Forall_forall in H; specialize (H x Hin).
  unfold is_termination_frame; apply Z.eqb_neq; congruence.
Qed.

(** Recording a run of events from fresh trace files. *)
Lemma record_events_fresh (evs : list (Task * EncodedEvent)) :
  Z.of_nat (length evs) <= UINT32_MAX ->
  exists w,
    record_events rec_init_trace_files evs = Some w /\
    w_events w = encode_frames (stamped_frames 0 [] evs) /\
    w_global_time w = Z.of_nat (length evs) /\
    w_raw w = [] /\ w_mmaps w = [].
Proof.
  intros Hlen.
  destruct (record_events_stamps evs rec_init_trace_files [])
    as [w (Hr & H1 & H2 & _ & H4 & H5)]; simpl; auto; try lia.
  exists w; repeat split; auto.
Qed.

(** ** C1: record/replay round trip *)

(** C1: for every run of N [record_event] calls (N within the [uint32_t]
    range of the sequencer, none of them carrying the termination event),
    N strict reads of the resulting trace return N frames whose global
    times are exactly 1..N, whose thread times count the frames of each
    thread (1, 2, ... per thread id), and whose thread id, event token,
    retired-branch counter and registers are the recorded ones, in
    order. *)
Theorem record_replay_roundtrip (EV : EncodedEvent)
    (evs : list (Task * EncodedEvent)) :
  Z.of_nat (length evs) <= UINT32_MAX ->
  Forall (fun x => snd x <> EV) evs ->
  exists w fs r,
    record_events rec_init_trace_files evs = Some w /\
    read_frames EV (rep_init_trace_files w) (length evs) = Some (fs, r) /\
    map global_time fs = map Z.of_nat (seq 1 (length evs)) /\
    map thread_time fs = thread_times (map (fun x => task_tid (fst x)) evs) /\
    map tid fs = map (fun x => task_tid (fst x)) evs /\
    map ev fs = map snd evs /\
    map rbc fs = map (fun x => task_rbc (fst x)) evs /\
    map recorded_regs fs = map (fun x => task_regs (fst x)) evs.
Proof.
  intros Hlen Hev.
  destruct (record_events_fresh evs Hlen) as [w (Hw & He & _ & _ & _)].
  destruct (read_frames_encoded EV (stamped_frames 0 [] evs)
              (rep_init_trace_files w) [])
    as [r (Hr & _)]; simpl; auto.
  - rewrite app_nil_r; exact He.
  - apply stamped_not_termination; exact Hev.
  - rewrite stamped_frames_length in Hr.
    exists w, (stamped_frames 0 [] evs), r; repeat split; auto.
    + apply (global_times_stamped evs 0).
    + apply thread_times_stamped.
    + apply tids_stamped.
    + apply evs_stamped.
    + apply rbcs_stamped.
    + apply regs_stamped.
Qed.

(** ** Ordering invariant *)

Lemma ForallOrdPairs_snoc {A : Type} (R : A -> A -> Prop) (l : list A) (x : A) :
  ForallOrdPairs R l -> Forall (fun a => R a x) l -> ForallOrdPairs R (l ++ [x]).
Proof.
  induction l as [|a l IH]; intros Hl Hx; simpl.
  - repeat constructor.
  - inversion Hl as [|? ? Ha Hl']; subst; inversion Hx; subst.
    constructor; [apply Forall_app; split; auto | auto].
Qed.

Lemma ForallOrdPairs_weaken {A : Type} (R R' : A -> A -> Prop) (l : list A) :
  (forall a b, R a b -> R' a b) -> ForallOrdPairs R l -> ForallOrdPairs R' l.
Proof.
  intros HR; induction 1; constructor; auto.
  eapply Forall_impl; [|eassumption]; auto.
Qed.

Lemma writer_inv_init : writer_inv rec_init_trace_files.
Proof.
  exists []; simpl; repeat split; try constructor; unfold UINT32_MAX; lia.
Qed.

Lemma writer_inv_append_frame (w w' : trace_writer) (t_id c : Z)
    (regs : user_regs_struct) (e : EncodedEvent) :
  writer_inv w -> append_frame w t_id c regs e = Some w' -> writer_inv w'.
Proof.
  intros (fs & He & Hlen & Hg & Hth & Hb & Hmax & Hc) Hw.
  unfold append_frame, next_global_time in Hw.
  destruct (Z.ltb_spec (w_global_time w) UINT32_MAX) as [Hlt|]; [|discriminate].
  injection Hw as <-.
  set (f := {| global_time := w_global_time w + 1;
               thread_time := w_thread_time w t_id + 1; tid := t_id; ev := e;
               rbc := c; recorded_regs := regs |}).
  exists (fs ++ [f]); cbn [w_events w_global_time w_thread_time].
  rewrite Forall_forall in Hb.
  split; [|split; [|split; [|split; [|split; [|split]]]]].
  - rewrite encode_frames_app, He; f_equal.
  - rewrite length_app; simpl; lia.
  - apply ForallOrdPairs_snoc; auto.
    apply Forall_forall; intros a Ha; specialize (Hb a Ha); simpl; lia.
  - apply ForallOrdPairs_snoc; auto.
    apply Forall_forall; intros a Ha Htid; specialize (Hb a Ha); simpl in *.
    rewrite <- Htid; lia.
  - apply Forall_app; split.
    + apply Forall_forall; intros a Ha; specialize (Hb a Ha).
      cbv beta; unfold update_counter.
      destruct (Z.eqb_spec (tid a) t_id) as [Heq|]; [rewrite Heq in Hb|]; lia.
    + constructor; [|constructor]; simpl; unfold update_counter.
      rewrite Z.eqb_refl; specialize (Hc t_id); lia.
  - lia.
  - intros k; unfold update_counter; destruct (Z.eqb k t_id);
      pose proof (Hc k); pose proof (Hc t_id); lia.
Qed.

Lemma writer_inv_step (EV : EncodedEvent) (w w' : trace_writer) :
  writer_inv w -> writer_step EV w w' -> writer_inv w'.
Proof.
  intros Hinv Hs; destruct Hs as [w t e w' H|w [t|] w' H|w t addr len buf w' H|w file].
  - eapply writer_inv_append_frame; eauto.
  - eapply writer_inv_append_frame; eauto.
  - eapply writer_inv_append_frame; eauto.
  - unfold record_data in H; destruct (_ <=? _); [|discriminate].
    injection H as <-; exact Hinv.
  - exact Hinv.
Qed.

Lemma reachable_writer_inv (EV : EncodedEvent) (w : trace_writer) :
  reachable EV w -> writer_inv w.
Proof.
  induction 1; [apply writer_inv_init | eapply writer_inv_step; eauto].
Qed.

(** C2: in every trace a recording session writes (any mix of
    [record_event], [record_trace_termination_event], [record_data] and
    [record_mmapped_file_stats] calls from fresh files), the frame stream is
    a sequence of whole frames in which no two frames share a global time,
    global times never decrease, and for each thread id the thread times
    strictly increase. *)
Theorem writer_preserves_ordering (EV : EncodedEvent) (w : trace_writer) :
  reachable EV w ->
  exists fs, w_events w = encode_frames fs /\ trace_ordered fs.
Proof.
  intros Hr; destruct (reachable_writer_inv EV w Hr)
    as (fs & He & _ & Hg & Hth & _).
  exists fs; split; [exact He|]; split; [|split]; [| |exact Hth];
    refine (ForallOrdPairs_weaken _ _ _ _ Hg); intros; lia.
Qed.

Lemma reachable_record_events (EV : EncodedEvent)
    (evs : list (Task * EncodedEvent)) :
  forall w w', reachable EV w -> record_events w evs = Some w' ->
               reachable EV w'.
Proof.
  induction evs as [|[t e] evs IH]; intros w w' Hr He; simpl in He.
  - injection He as <-; exact Hr.
  - destruct (record_event w t e) as [w1|] eqn:E1; [|discriminate].
    apply (IH w1); auto.
    eapply reachable_step; [exact Hr|]; eapply step_record_event; eauto.
Qed.

(** ** Width of the order counters *)

(** C9 (amended): in every trace a recording session writes, every stored
    global and thread time lies in 1 .. 2^32 - 1, the trace holds at most
    2^32 - 1 frames, and global times strictly increase across the whole
    trace; once the sequencer has handed out 2^32 - 1, the next
    [record_event] is fatal rather than wrapping to 0. *)
Theorem order_counters_in_uint32 (EV : EncodedEvent) (w : trace_writer) :
  reachable EV w ->
  exists fs,
    w_events w = encode_frames fs /\
    Z.of_nat (length fs) <= UINT32_MAX /\
    Forall (fun f => 1 <= global_time f <= UINT32_MAX /\
                     1 <= thread_time f <= UINT32_MAX) fs /\
    ForallOrdPairs (fun a b => global_time a < global_time b) fs /\
    (w_global_time w = UINT32_MAX ->
     forall t e, record_event w t e = None).
Proof.
  intros Hr; destruct (reachable_writer_inv EV w Hr)
    as (fs & He & Hlen & Hg & _ & Hb & Hmax & Hc).
  exists fs; split; [exact He|]; split; [lia|]; split; [|split; [exact Hg|]].
  - eapply Forall_impl; [|exact Hb]; intros f Hf; simpl in Hf.
    pose proof (Hc (tid f)); lia.
  - intros Heq t e; unfold record_event, append_frame, next_global_time.
    rewrite Heq, Z.ltb_irrefl; reflexivity.
Qed.

(** C9 counterexample: after 2^32 - 1 [record_event] calls from fresh
    files the sequencer stands at 2^32 - 1, and one more [record_event]
    does not wrap the global time to 0: it is fatal. *)
Lemma global_time_does_not_wrap :
  exists w,
    record_events rec_init_trace_files
      (repeat (task42, 1) (Z.to_nat UINT32_MAX)) = Some w /\
    w_global_time w = UINT32_MAX /\
    record_event w task42 1 = None /\
    ~ (exists w', record_event w task42 1 = Some w' /\
                  w_global_time w' = 0).
Proof.
  destruct (record_events_fresh (repeat (task42, 1) (Z.to_nat UINT32_MAX)))
    as [w (Hw & _ & Hg & _)].
  - rewrite repeat_length, Z2Nat.id; unfold UINT32_MAX; lia.
  - rewrite repeat_length, Z2Nat.id in Hg by (unfold UINT32_MAX; lia).
    assert (Hn : record_event w task42 1 = None).
    { unfold record_event, append_frame, next_global_time.
      rewrite Hg, Z.ltb_irrefl; reflexivity. }
    exists w; split; [exact Hw|]; split; [exact Hg|]; split; [exact Hn|].
    intros (w' & H & _); congruence.
Qed.

(** ** Position counter *)

Lemma firstn_seq_le (i n s : nat) :
  (i <= n)%nat -> firstn i (seq s n) = seq s i.
Proof.
  revert n s; induction i as [|i IH]; intros n s Hle; [reflexivity|].
  destruct n as [|n]; [lia|]; simpl; f_equal; apply IH; lia.
Qed.

Lemma last_seq_of_nat (i : nat) :
  last (map Z.of_nat (seq 1 i)) 0 = Z.of_nat i.
Proof.
  induction i as [|i IH]; [reflexivity|].
  rewrite seq_S, map_app; simpl map; rewrite last_last; lia.
Qed.

(** C6: replaying a trace of N recorded events, after any i <= N strict
    reads the position counter [get_global_time] reports exactly i (base
    0) and leaves the reader unchanged; the sequencer's [next] hands out
    exactly one more than the value before it. *)
Theorem global_time_counts_frames (EV : EncodedEvent)
    (evs : list (Task * EncodedEvent)) :
  Z.of_nat (length evs) <= UINT32_MAX ->
  Forall (fun x => snd x <> EV) evs ->
  (forall g g', next_global_time g = Some g' -> g' = g + 1) /\
  exists w,
    record_events rec_init_trace_files evs = Some w /\
    forall i, (i <= length evs)%nat ->
      exists fs r,
        read_frames EV (rep_init_trace_files w) i = Some (fs, r) /\
        get_global_time r = (Z.of_nat i, r).
Proof.
  intros Hlen Hev; split.
  { intros g g'; unfold next_global_time.
    destruct (g <? UINT32_MAX); intros H; [injection H; lia|discriminate]. }
  destruct (record_events_fresh evs Hlen) as [w (Hw & He & _ & _ & _)].
  exists w; split; [exact Hw|]; intros i Hi.
  set (sf := stamped_frames 0 [] evs).
  destruct (read_frames_encoded EV (firstn i sf) (rep_init_trace_files w)
              (encode_frames (skipn i sf)))
    as [r (Hr & _ & _ & _ & _ & Hg)].
  - simpl; rewrite He, <- encode_frames_app, firstn_skipn; reflexivity.
  - reflexivity.
  - pose proof (stamped_not_termination EV evs 0 [] Hev) as Hall.
    fold sf in Hall.
    rewrite <- (firstn_skipn i sf) in Hall; apply Forall_app in Hall; tauto.
  - rewrite length_firstn in Hr; unfold sf in Hr.
    rewrite stamped_frames_length in Hr; fold sf in Hr.
    replace (Nat.min i (length evs)) with i in Hr by lia.
    exists (firstn i sf), r; split; [exact Hr|].
    unfold get_global_time; f_equal; rewrite Hg; simpl.
    rewrite <- firstn_map; unfold sf.
    pose proof (global_times_stamped evs 0 []) as Hgs.
    change (Z.of_nat 0) with 0 in Hgs.
    rewrite Hgs, firstn_map, firstn_seq_le by exact Hi.
    apply last_seq_of_nat.
Qed.

(** ** Decoding lemmas *)

Lemma decode_regs_inv (ws : list Z) (r : user_regs_struct) (rest : list Z) :
  decode_regs ws = Some (r, rest) -> ws = encode_regs r ++ rest.
Proof.
  intros H; do 27 (destruct ws as [|? ws]; [discriminate|]).
  injection H as <- <-; reflexivity.
Qed.

Lemma decode_frame_inv (ws : list Z) (f : trace_frame) (rest : list Z) :
  decode_frame ws = FrameAt f rest -> ws = encode_frame f ++ rest.
Proof.
  intros H; do 5 (destruct ws as [|? ws]; [discriminate|]).
  simpl in H; destruct (decode_regs ws) as [[regs rest']|] eqn:E;
    [|discriminate].
  injection H as <- <-; apply decode_regs_inv in E; subst; reflexivity.
Qed.

Lemma length_encode_frame (f : trace_frame) :
  length (encode_frame f) = FRAME_WORDS.
Proof. reflexivity. Qed.

Lemma decode_frame_end (ws : list Z) :
  decode_frame ws = EndOfStream -> ws = [].
Proof.
  destruct ws as [|a ws]; [reflexivity|]; simpl.
  do 4 (destruct ws as [|? ws]; [discriminate|]).
  destruct (decode_regs ws) as [[? ?]|]; discriminate.
Qed.

(** A non-empty remainder shorter than one frame image is a truncated
    record. *)
Lemma decode_frame_partial (ws : list Z) :
  (0 < length ws < FRAME_WORDS)%nat ->
  decode_frame ws = Truncated.
Proof.
  intros Hlen; destruct (decode_frame ws) as [f rest| |] eqn:E; auto.
  - apply decode_frame_inv in E; subst ws.
    rewrite length_app, length_encode_frame in Hlen; lia.
  - apply decode_frame_end in E; subst; simpl in Hlen; lia.
Qed.

Lemma read_next_try_read (EV : EncodedEvent) (r : trace_reader)
    (f : trace_frame) (r' : trace_reader) :
  read_next_trace EV r = Some (f, r') <->
  try_read_next_trace EV r = Some (Some f, r').
Proof.
  unfold read_next_trace, try_read_next_trace.
  destruct (r_exhausted r); [split; discriminate|].
  destruct (decode_frame (r_events r)); split; congruence.
Qed.

(** ** Lookahead *)

(** C3: [peek_next_trace] always reports what [read_next_trace] would
    return, with the reader left where it was.  On a reader that is not
    exhausted and whose frame stream starts with a whole frame [f], the
    peek returns [f] and the unchanged reader; the next [read_next_trace]
    (and [try_read_next_trace]) returns the same [f], consuming exactly its
    image; and, unless [f] is the termination frame, the peek and read after
    that return the frame that follows it, consuming exactly that one. *)
Theorem peek_then_read (EV : EncodedEvent) (r : trace_reader)
    (f : trace_frame) (rest : list Z) :
  r_exhausted r = false ->
  r_events r = encode_frame f ++ rest ->
  (forall r0, peek_next_trace r0
              = option_map (fun p => (fst p, r0)) (read_next_trace EV r0)) /\
  peek_next_trace r = Some (f, r) /\
  exists r2,
    read_next_trace EV r = Some (f, r2) /\
    try_read_next_trace EV r = Some (Some f, r2) /\
    r_events r2 = rest /\
    (forall g rest', rest = encode_frame g ++ rest' ->
       is_termination_frame EV f = false ->
       exists r3, peek_next_trace r2 = Some (g, r2) /\
                  read_next_trace EV r2 = Some (g, r3) /\
                  r_events r3 = rest').
Proof.
  intros Ex Ev; split.
  { intros r0; unfold peek_next_trace, read_next_trace.
    destruct (r_exhausted r0); [reflexivity|].
    destruct (decode_frame (r_events r0)); reflexivity. }
  assert (E : decode_frame (r_events r) = FrameAt f rest)
    by (rewrite Ev; apply decode_encode_frame).
  split; [unfold peek_next_trace; rewrite Ex, E; reflexivity|].
  exists (consume_frame EV r f rest).
  assert (Hr : read_next_trace EV r = Some (f, consume_frame EV r f rest))
    by (unfold read_next_trace; rewrite Ex, E; reflexivity).
  split; [exact Hr|]; split; [apply read_next_try_read; exact Hr|].
  split; [reflexivity|].
  intros g rest' -> Hterm.
  set (r2 := consume_frame EV r f (encode_frame g ++ rest')).
  assert (Ex2 : r_exhausted r2 = false) by exact Hterm.
  assert (Ev2 : r_events r2 = encode_frame g ++ rest') by reflexivity.
  exists (consume_frame EV r2 g rest').
  unfold peek_next_trace, read_next_trace.
  rewrite Ex2, Ev2, decode_encode_frame; repeat split.
Qed.

(** ** End of stream versus corruption *)

Lemma read_frames_try_read_frames (EV : EncodedEvent) (n : nat) :
  forall r fs r' o r'',
    read_frames EV r n = Some (fs, r') ->
    try_read_next_trace EV r' = Some (o, r'') ->
    try_read_frames EV r (S n) = Some (map Some fs ++ [o], r'').
Proof.
  induction n as [|n IH]; intros r fs r' o r'' Hr Ht; simpl in Hr.
  - injection Hr as <- <-; simpl; rewrite Ht; reflexivity.
  - destruct (read_next_trace EV r) as [[f r1]|] eqn:E1; [|discriminate].
    destruct (read_frames EV r1 n) as [[fs1 r2]|] eqn:E2; [|discriminate].
    injection Hr as <- <-.
    change (try_read_frames EV r (S (S n))) with
      (match try_read_next_trace EV r with
       | Some (o0, r0) =>
           match try_read_frames EV r0 (S n) with
           | Some (os, r3) => Some (o0 :: os, r3)
           | None => None
           end
       | None => None
       end).
    apply read_next_try_read in E1; rewrite E1; erewrite IH by eauto; reflexivity.
Qed.

Lemma read_frames_try_read_frames_fatal (EV : EncodedEvent) (n : nat) :
  forall r fs r',
    read_frames EV r n = Some (fs, r') ->
    try_read_next_trace EV r' = None ->
    try_read_frames EV r (S n) = None.
Proof.
  induction n as [|n IH]; intros r fs r' Hr Ht; simpl in Hr.
  - injection Hr as <- <-; simpl; rewrite Ht; reflexivity.
  - destruct (read_next_trace EV r) as [[f r1]|] eqn:E1; [|discriminate].
    destruct (read_frames EV r1 n) as [[fs1 r2]|] eqn:E2; [|discriminate].
    injection Hr as <- <-.
    change (try_read_frames EV r (S (S n))) with
      (match try_read_next_trace EV r with
       | Some (o0, r0) =>
           match try_read_frames EV r0 (S n) with
           | Some (os, r3) => Some (o0 :: os, r3)
           | None => None
           end
       | None => None
       end).
    apply read_next_try_read in E1; rewrite E1; erewrite IH by eauto; reflexivity.
Qed.

(** C4: [try_read_next_trace] returns a frame exactly when
    [read_next_trace] does, with the same frame and reader.  On a stream
    of whole frames (none a termination frame) followed by a tail shorter
    than one frame: if the tail is empty (clean end), the lenient reads
    return every frame and then report absence once, without a fatal
    error, while a strict read at that point is fatal, and so is any read
    after the absence; if the tail is a partial frame (truncation), both
    the strict and the lenient read at that point are fatal. *)
Theorem try_read_end_vs_corruption (EV : EncodedEvent)
    (fs : list trace_frame) (tail : list Z) (r : trace_reader) :
  r_events r = encode_frames fs ++ tail ->
  r_exhausted r = false ->
  Forall (fun f => is_termination_frame EV f = false) fs ->
  (length tail < FRAME_WORDS)%nat ->
  (forall r0 f r0', read_next_trace EV r0 = Some (f, r0') <->
                    try_read_next_trace EV r0 = Some (Some f, r0')) /\
  exists r1,
    read_frames EV r (length fs) = Some (fs, r1) /\
    (tail = [] ->
       read_next_trace EV r1 = None /\
       exists r2,
         try_read_frames EV r (S (length fs)) = Some (map Some fs ++ [None], r2) /\
         try_read_next_trace EV r2 = None) /\
    (tail <> [] ->
       read_next_trace EV r1 = None /\
       try_read_next_trace EV r1 = None /\
       try_read_frames EV r (S (length fs)) = None).
Proof.
  intros He Hex Hterm Hlen; split; [apply read_next_try_read|].
  destruct (read_frames_encoded EV fs r tail He Hex Hterm)
    as [r1 (Hr & H1 & H2 & _)].
  exists r1; split; [exact Hr|]; split.
  - intros ->.
    assert (Hd : decode_frame (r_events r1) = EndOfStream) by (rewrite H1; reflexivity).
    split; [unfold read_next_trace; rewrite H2, Hd; reflexivity|].
    set (r2 := {| r_events := r_events r1; r_raw := r_raw r1;
                  r_mmaps := r_mmaps r1; r_global_time := r_global_time r1;
                  r_exhausted := true |}).
    exists r2; split.
    + apply (read_frames_try_read_frames EV _ r fs r1); auto.
      unfold try_read_next_trace; rewrite H2, Hd; reflexivity.
    + reflexivity.
  - intros Hne.
    assert (Hd : decode_frame (r_events r1) = Truncated).
    { rewrite H1; apply decode_frame_partial.
      destruct tail; [congruence|]; simpl in *; lia. }
    assert (Ht : try_read_next_trace EV r1 = None)
      by (unfold try_read_next_trace; rewrite H2, Hd; reflexivity).
    split; [unfold read_next_trace; rewrite H2, Hd; reflexivity|].
    split; [exact Ht|].
    apply (read_frames_try_read_frames_fatal EV _ r fs r1); auto.
Qed.

(** ** Termination frame *)

(** C8: after any run of N ordinary events, [record_trace_termination_event]
    with no thread ([nullptr]) appends a frame that the reader returns
    after the N recorded frames as the termination marker: it carries the
    termination event, the next global time, and no thread identity (tid
    0, zero counter and registers).  Consuming it ends the frame stream:
    every later read, strict, lenient or peek, is refused. *)
Theorem termination_frame_ends_stream (EV : EncodedEvent)
    (evs : list (Task * EncodedEvent)) :
  Z.of_nat (length evs) < UINT32_MAX ->
  Forall (fun x => snd x <> EV) evs ->
  exists w w' fs r1 f r2,
    record_events rec_init_trace_files evs = Some w /\
    record_trace_termination_event EV w None = Some w' /\
    read_frames EV (rep_init_trace_files w') (length evs) = Some (fs, r1) /\
    read_next_trace EV r1 = Some (f, r2) /\
    is_termination_frame EV f = true /\ ev f = EV /\
    tid f = 0 /\ rbc f = 0 /\ recorded_regs f = zero_regs /\
    global_time f = Z.of_nat (length evs) + 1 /\
    read_next_trace EV r2 = None /\ try_read_next_trace EV r2 = None /\
    peek_next_trace r2 = None.
Proof.
  intros Hlen Hev.
  destruct (record_events_fresh evs) as [w (Hw & He & Hg & _ & _)]; [lia|].
  assert (Hnext : next_global_time (w_global_time w) = Some (Z.of_nat (length evs) + 1)).
  { unfold next_global_time; rewrite Hg; rewrite (proj2 (Z.ltb_lt _ _)); auto. }
  set (tf := {| global_time := Z.of_nat (length evs) + 1;
                thread_time := w_thread_time w 0 + 1; tid := 0;
                ev := EV; rbc := 0; recorded_regs := zero_regs |}).
  set (w' := {| w_global_time := Z.of_nat (length evs) + 1;
                w_thread_time := update_counter (w_thread_time w) 0
                                   (w_thread_time w 0 + 1);
                w_events := w_events w ++ encode_frame tf;
                w_raw := w_raw w; w_mmaps := w_mmaps w |}).
  assert (Hw' : record_trace_termination_event EV w None = Some w').
  { unfold record_trace_termination_event, append_frame; rewrite Hnext; reflexivity. }
  destruct (read_frames_encoded EV (stamped_frames 0 [] evs)
              (rep_init_trace_files w') (encode_frame tf))
    as [r1 (Hr & H1 & H2 & _)].
  - simpl; rewrite He; reflexivity.
  - reflexivity.
  - apply stamped_not_termination; exact Hev.
  - rewrite stamped_frames_length in Hr.
    assert (Htf : is_termination_frame EV tf = true) by apply Z.eqb_refl.
    assert (Hd : read_next_trace EV r1 = Some (tf, consume_frame EV r1 tf [])).
    { unfold read_next_trace; rewrite H2, H1, <- (app_nil_r (encode_frame tf)).
      rewrite decode_encode_frame; reflexivity. }
    exists w, w', (stamped_frames 0 [] evs), r1, tf, (consume_frame EV r1 tf []).
    do 3 (split; [assumption|]); split; [exact Hd|]; split; [exact Htf|].
    do 5 (split; [reflexivity|]).
    unfold read_next_trace, try_read_next_trace, peek_next_trace.
    simpl r_exhausted; rewrite Htf; repeat split.
Qed.

(** ** Raw data *)

(** C5: [read_raw_data_direct] with a buffer of [buf_size] bytes: when the
    next raw-data block belongs to [trace], was read in full and holds at
    most [buf_size] bytes, its bytes are copied to the front of the buffer,
    its size is returned and its tracee address reported; when there is no
    block, it belongs to another frame, it does not fit or it was cut
    short, -1 is returned and nothing changes (no fatal error).  In the
    spec's scenario, a 4096-byte block at 0x400000 read into a 4096-byte
    buffer returns 4096 and the exact bytes; into a 10-byte buffer, -1. *)
Theorem read_raw_data_direct_contract (r : trace_reader) (trace : trace_frame)
    (buf : list Byte.byte) (buf_size : Z) :
  Z.of_nat (length buf) = buf_size ->
  (forall d rest,
     r_raw r = d :: rest -> raw_global_time d = global_time trace ->
     Z.of_nat (length (raw_bytes d)) = raw_size d -> raw_size d <= buf_size ->
     dr_ret (read_raw_data_direct r trace buf buf_size) = raw_size d /\
     firstn (length (raw_bytes d)) (dr_buf (read_raw_data_direct r trace buf buf_size))
       = raw_bytes d /\
     length (dr_buf (read_raw_data_direct r trace buf buf_size)) = length buf /\
     dr_rec_addr (read_raw_data_direct r trace buf buf_size) = Some (raw_addr d) /\
     r_raw (dr_reader (read_raw_data_direct r trace buf buf_size)) = rest) /\
  ((r_raw r = [] \/
    exists d rest, r_raw r = d :: rest /\
      (raw_global_time d <> global_time trace \/ buf_size < raw_size d \/
       Z.of_nat (length (raw_bytes d)) <> raw_size d)) ->
   read_raw_data_direct r trace buf buf_size
   = {| dr_ret := -1; dr_buf := buf; dr_rec_addr := None; dr_reader := r |}) /\
  (raw_scenario = Some raw_scenario_writer /\
   exists f r1,
     read_next_trace EV_TERM_EXAMPLE (rep_init_trace_files raw_scenario_writer)
       = Some (f, r1) /\
     dr_ret (read_raw_data_direct r1 f (repeat Byte.x00 4096) 4096) = 4096 /\
     dr_buf (read_raw_data_direct r1 f (repeat Byte.x00 4096) 4096) = block4096 /\
     dr_rec_addr (read_raw_data_direct r1 f (repeat Byte.x00 4096) 4096)
       = Some 4194304 /\
     dr_ret (read_raw_data_direct r1 f (repeat Byte.x00 10) 10) = -1).
Proof.
  intros Hsize; split; [|split].
  - intros d rest Hr Ht Hl Hfit; unfold read_raw_data_direct; rewrite Hr.
    rewrite Ht, Z.eqb_refl, Hl, Z.eqb_refl, (proj2 (Z.leb_le _ _) Hfit).
    simpl; repeat split; auto.
    + rewrite firstn_app, Nat.sub_diag; simpl.
      rewrite firstn_all, app_nil_r; reflexivity.
    + rewrite length_app, length_skipn; lia.
  - unfold read_raw_data_direct; intros [Hr|(d & rest & Hr & Hbad)];
      rewrite Hr; [reflexivity|].
    destruct (Z.eqb_spec (raw_global_time d) (global_time trace));
      destruct (Z.leb_spec (raw_size d) buf_size);
      destruct (Z.eqb_spec (Z.of_nat (length (raw_bytes d))) (raw_size d));
      simpl; auto; exfalso; lia.
  - split; [vm_compute; reflexivity|].
    eexists; eexists; split; [vm_compute; reflexivity|].
    vm_compute; repeat split.
Qed.

(** C10: [record_data]'s [ssize_t] length admits negative values (-1 is
    one).  For [0 <= len] with [len] bytes available in [buf], exactly
    [len] bytes (the first [len] of [buf]) are appended as one raw-data
    block of size [len], tagged with [addr] and the current global time,
    and nothing else changes.  For a negative [len] there is no guard: the
    length becomes the huge [size_t] count [len + 2^64], more than [buf]
    holds, and the call has no defined outcome. *)
Theorem record_data_signed_len (w : trace_writer) (t : Task) (addr len : Z)
    (buf : list Byte.byte) :
  is_ssize_t len = true ->
  is_ssize_t (-1) = true /\
  (0 <= len <= Z.of_nat (length buf) ->
   exists w',
     record_data w t addr len buf = Some w' /\
     w_raw w' = w_raw w ++ [{| raw_global_time := w_global_time w;
                               raw_addr := addr; raw_size := len;
                               raw_bytes := firstn (Z.to_nat len) buf |}] /\
     length (firstn (Z.to_nat len) buf) = Z.to_nat len /\
     w_events w' = w_events w /\ w_mmaps w' = w_mmaps w /\
     w_global_time w' = w_global_time w) /\
  (len < 0 -> Z.of_nat (length buf) <= SSIZE_MAX ->
   record_data w t addr len buf = None).
Proof.
  unfold is_ssize_t, SSIZE_MIN, SSIZE_MAX; intros Hs.
  apply andb_true_iff in Hs as [Hlo Hhi].
  apply Z.leb_le in Hlo; apply Z.leb_le in Hhi.
  split; [reflexivity|]; split.
  - intros Hlen; unfold record_data.
    rewrite Z.mod_small by lia.
    rewrite (proj2 (Z.leb_le _ _)) by lia.
    eexists; split; [reflexivity|]; simpl; repeat split.
    rewrite length_firstn; lia.
  - intros Hneg Hbuf; unfold record_data.
    replace (len mod 2 ^ 64) with (len + 2 ^ 64).
    + rewrite (proj2 (Z.leb_gt _ _)) by lia; reflexivity.
    + apply (Z.mod_unique len (2 ^ 64) (-1)); lia.
Qed.

(** ** Mapping records *)

Lemma read_mmapped_files_all (ms : list mmapped_file) :
  forall r, r_mmaps r = ms ->
    exists r', read_mmapped_files r (length ms) = Some (ms, r') /\
               r_mmaps r' = [] /\ r_events r' = r_events r /\
               r_raw r' = r_raw r /\ r_global_time r' = r_global_time r.
Proof.
  induction ms as [|m ms IH]; intros r Hr; simpl.
  - exists r; repeat split; auto.
  - unfold read_next_mmapped_file_stats; rewrite Hr.
    destruct (IH {| r_events := r_events r; r_raw := r_raw r; r_mmaps := ms;
                    r_global_time := r_global_time r;
                    r_exhausted := r_exhausted r |}) as [r' (H1 & H2 & H3 & H4 & H5)];
      [reflexivity|].
    rewrite H1; exists r'; repeat split; auto.
Qed.

Lemma run_writer_ops_mmaps (EV : EncodedEvent) (ops : list writer_op) :
  forall w w', run_writer_ops EV w ops = Some w' ->
    w_mmaps w' = w_mmaps w ++ mmaps_of ops.
Proof.
  induction ops as [|op ops IH]; intros w w' H; simpl in H.
  - injection H as <-; rewrite app_nil_r; reflexivity.
  - destruct (run_writer_op EV w op) as [w1|] eqn:E; [|discriminate].
    rewrite (IH _ _ H); cbn [mmaps_of flat_map]; rewrite app_assoc; f_equal.
    assert (Hap : forall t_id c regs e w2,
               append_frame w t_id c regs e = Some w2 -> w_mmaps w2 = w_mmaps w).
    { intros t_id c regs e w2 Ha; unfold append_frame in Ha.
      destruct (next_global_time (w_global_time w)); [|discriminate].
      injection Ha as <-; reflexivity. }
    destruct op as [t e|[t|]|t addr len buf|file]; simpl in E.
    + rewrite (Hap _ _ _ _ _ E), app_nil_r; reflexivity.
    + rewrite (Hap _ _ _ _ _ E), app_nil_r; reflexivity.
    + rewrite (Hap _ _ _ _ _ E), app_nil_r; reflexivity.
    + unfold record_data in E.
      destruct (_ <=? _); [|discriminate].
      injection E as <-; rewrite app_nil_r; reflexivity.
    + injection E as <-; reflexivity.
Qed.

Lemma run_reader_ops_mmaps (EV : EncodedEvent) (ops : list reader_op) :
  forall r ms r', run_reader_ops EV r ops = Some (ms, r') ->
    r_mmaps r = ms ++ r_mmaps r'.
Proof.
  induction ops as [|op ops IH]; intros r ms r' H; simpl in H.
  - injection H as <- <-; reflexivity.
  - destruct (run_reader_op EV r op) as [[ms1 r1]|] eqn:E; [|discriminate].
    destruct (run_reader_ops EV r1 ops) as [[ms2 r2]|] eqn:E2; [|discriminate].
    injection H as <- <-; rewrite <- app_assoc, <- (IH _ _ _ E2).
    destruct op; simpl in E.
    + unfold read_next_trace in E; destruct (r_exhausted r); [discriminate|].
      destruct (decode_frame (r_events r)); try discriminate.
      injection E as <- <-; reflexivity.
    + unfold try_read_next_trace in E; destruct (r_exhausted r); [discriminate|].
      destruct (decode_frame (r_events r)); try discriminate;
        injection E as <- <-; reflexivity.
    + unfold peek_next_trace in E; destruct (r_exhausted r); [discriminate|].
      destruct (decode_frame (r_events r)); try discriminate.
      injection E as <- <-; reflexivity.
    + unfold read_raw_data in E; destruct (r_raw r); [discriminate|].
      destruct (_ && _); [|discriminate].
      injection E as <- <-; reflexivity.
    + injection E as <- <-; unfold read_raw_data_direct.
      destruct (r_raw r); [reflexivity|].
      destruct (_ && _ && _); reflexivity.
    + unfold read_next_mmapped_file_stats in E; destruct (r_mmaps r);
        [discriminate|].
      injection E as <- <-; reflexivity.
Qed.

(** C7 (amended): [record_mmapped_file_stats] stores each mapping record
    exactly as the caller built it (its [copied] flag, file identity and
    bounds untouched), without writing the frame or raw-data streams or
    the counters.  In any recording session, whatever events, raw data and
    termination calls are interleaved with the mapping records, the
    mapping-record stream holds exactly the records given, in call order;
    and in any replay of it, whatever frame, lookahead and raw-data reads
    are interleaved, the mapping records [read_next_mmapped_file_stats]
    returned, followed by those still to read, are exactly those records,
    and the rest can be read out without touching the other streams.
    Whether a copied region has a raw-data block, or a non-copied one a
    still-valid file identity, is left to the caller that builds the
    record. *)
Theorem mmapped_file_records_as_given (EV : EncodedEvent)
    (ops : list writer_op) (w : trace_writer) (rops : list reader_op)
    (ms : list mmapped_file) (r : trace_reader) :
  run_writer_ops EV rec_init_trace_files ops = Some w ->
  run_reader_ops EV (rep_init_trace_files w) rops = Some (ms, r) ->
  (forall w0 file,
     w_events (record_mmapped_file_stats w0 file) = w_events w0 /\
     w_raw (record_mmapped_file_stats w0 file) = w_raw w0 /\
     w_global_time (record_mmapped_file_stats w0 file) = w_global_time w0 /\
     w_thread_time (record_mmapped_file_stats w0 file) = w_thread_time w0 /\
     w_mmaps (record_mmapped_file_stats w0 file) = w_mmaps w0 ++ [file]) /\
  w_mmaps w = mmaps_of ops /\
  ms ++ r_mmaps r = mmaps_of ops /\
  exists r',
    read_mmapped_files r (length (r_mmaps r)) = Some (r_mmaps r, r') /\
    r_events r' = r_events r /\ r_raw r' = r_raw r /\
    r_global_time r' = r_global_time r.
Proof.
  intros Hw Hr.
  split; [intros w0 file; repeat split|].
  pose proof (run_writer_ops_mmaps EV ops _ _ Hw) as Hm; simpl in Hm.
  split; [exact Hm|].
  pose proof (run_reader_ops_mmaps EV rops _ _ _ Hr) as Hrm; simpl in Hrm.
  split; [rewrite <- Hrm; exact Hm|].
  destruct (read_mmapped_files_all (r_mmaps r) r eq_refl)
    as [r' (H1 & _ & H3 & H4 & H5)].
  exists r'; repeat split; assumption.
Qed.

(** C7 counterexample: a session that records a mapping record marked as
    copied, and nothing else, is a valid recording; its trace holds that
    record, yet has no raw-data block at all, and [read_raw_data_direct]
    finds nothing for any frame. *)
Lemma copied_region_without_block :
  reachable EV_TERM_EXAMPLE copied_region_writer /\
  (exists r, read_next_mmapped_file_stats
               (rep_init_trace_files copied_region_writer)
             = Some (copied_region, r)) /\
  copied copied_region <> 0 /\
  w_raw copied_region_writer = [] /\
  (forall trace buf buf_size,
     dr_ret (read_raw_data_direct (rep_init_trace_files copied_region_writer)
               trace buf buf_size) = -1).
Proof.
  split; [|split; [|split; [|split]]].
  - eapply reachable_step; [apply reachable_init|].
    apply step_record_mmapped_file.
  - eexists; reflexivity.
  - discriminate.
  - reflexivity.
  - intros; reflexivity.
Qed.

(** ** Further properties of the trace interface *)

Lemma writer_positions_append_frame (w w' : trace_writer) (t_id c : Z)
    (regs : user_regs_struct) (e : EncodedEvent) :
  writer_positions w -> append_frame w t_id c regs e = Some w' ->
  writer_positions w'.
Proof.
  intros (fs & He & Hm & Hg) Hw.
  unfold append_frame in Hw; destruct (next_global_time (w_global_time w))
    as [g|] eqn:En; [|discriminate].
  unfold next_global_time in En; destruct (_ <? _); [|discriminate].
  injection En as <-; injection Hw as <-.
  set (f := {| global_time := w_global_time w + 1;
               thread_time := w_thread_time w t_id + 1; tid := t_id; ev := e;
               rbc := c; recorded_regs := regs |}).
  exists (fs ++ [f]); cbn [w_events w_global_time]; split; [|split].
  - rewrite encode_frames_app, He; f_equal.
  - rewrite map_app, Hm, length_app, Nat.add_1_r, seq_S, map_app; simpl.
    rewrite Hg; do 2 f_equal; lia.
  - rewrite length_app; simpl; lia.
Qed.

(** X1: [get_global_time] on the recording side (trace.h: "exactly the
    line number ... of the event that was just recorded"): in every state
    a recording session reaches, the frame stream holds exactly
    [w_global_time] frames and the k-th of them carries global time k. *)
Theorem recorded_global_time_is_position (EV : EncodedEvent)
    (w : trace_writer) :
  reachable EV w ->
  exists fs,
    w_events w = encode_frames fs /\
    Z.of_nat (length fs) = w_global_time w /\
    map global_time fs = map Z.of_nat (seq 1 (length fs)).
Proof.
  intros Hr; assert (Hp : writer_positions w).
  { induction Hr as [|w w' Hr IH Hs].
    - exists []; repeat split.
    - destruct Hs as [w t e w' H|w [t|] w' H|w t addr len buf w' H|w file].
      + eapply writer_positions_append_frame; eauto.
      + eapply writer_positions_append_frame; eauto.
      + eapply writer_positions_append_frame; eauto.
      + unfold record_data in H; destruct (_ <=? _); [|discriminate].
        injection H as <-; exact IH.
      + exact IH. }
  destruct Hp as (fs & He & Hm & Hg); exists fs; repeat split; auto.
Qed.

(** X2: in every state a recording session reaches, the raw-data blocks
    are stored in non-decreasing order of the frame they belong to, each
    belongs to a frame already recorded (or to the start of the trace),
    and each holds exactly its recorded size in bytes, so the replay side
    never meets a short block in a trace the writer produced. *)
Theorem raw_blocks_ordered_and_whole (EV : EncodedEvent) (w : trace_writer) :
  reachable EV w -> raw_stream_ok w.
Proof.
  induction 1 as [|w w' Hr IH Hs].
  - unfold raw_stream_ok; simpl; repeat constructor; lia.
  - destruct IH as (Ho & Hb & Hg0).
    assert (Hfr : forall t_id c regs e w1, append_frame w t_id c regs e = Some w1 ->
                  raw_stream_ok w1).
    { intros t_id c regs e w1 H; unfold append_frame, next_global_time in H.
      destruct (_ <? _); [|discriminate]; injection H as <-.
      unfold raw_stream_ok; cbn [w_raw w_global_time]; split; [exact Ho|].
      split; [|lia]; eapply Forall_impl; [|exact Hb]; simpl; intros; lia. }
    destruct Hs as [w t e w' H|w [t|] w' H|w t addr len buf w' H|w file].
    + exact (Hfr _ _ _ _ _ H).
    + exact (Hfr _ _ _ _ _ H).
    + exact (Hfr _ _ _ _ _ H).
    + unfold record_data in H.
      destruct (Z.leb_spec (len mod 2 ^ 64) (Z.of_nat (length buf))) as [Hle|];
        [|discriminate].
      injection H as <-; unfold raw_stream_ok; cbn [w_raw w_global_time].
      pose proof (Z.mod_pos_bound len (2 ^ 64)) as Hm.
      split; [|split; [|exact Hg0]].
      * apply ForallOrdPairs_snoc; [exact Ho|].
        eapply Forall_impl; [|exact Hb]; simpl; intros; lia.
      * apply Forall_app; split; [exact Hb|].
        constructor; [|constructor]; simpl; split; [lia|].
        rewrite length_firstn; lia.
    + unfold raw_stream_ok; simpl; repeat split; assumption.
Qed.

(** X3: a [read_raw_data_direct] call that returns -1 has no effect: the
    caller's buffer, the [rec_addr] outparam and the reader are as before,
    so the caller can retry, e.g. with a larger buffer. *)
Theorem read_raw_data_direct_failure_no_effect (r : trace_reader)
    (trace : trace_frame) (buf : list Byte.byte) (buf_size : Z) :
  dr_ret (read_raw_data_direct r trace buf buf_size) = -1 ->
  dr_buf (read_raw_data_direct r trace buf buf_size) = buf /\
  dr_rec_addr (read_raw_data_direct r trace buf buf_size) = None /\
  dr_reader (read_raw_data_direct r trace buf buf_size) = r.
Proof.
  unfold read_raw_data_direct; destruct (r_raw r) as [|d rest];
    [intros; repeat split|].
  destruct (Z.eqb_spec (Z.of_nat (length (raw_bytes d))) (raw_size d)) as [Hl|];
    rewrite ?andb_false_r; [|intros; repeat split].
  destruct (_ && _); simpl; [lia|intros; repeat split].
Qed.

(** X4: the allocating and the buffer-filling raw-data reads agree: when
    [read_raw_data] returns a block of [size] bytes, a
    [read_raw_data_direct] call in its place with a buffer of at least
    [size] bytes returns [size], puts the same bytes at the front of the
    buffer, reports the same tracee address and consumes the same block. *)
Theorem read_raw_data_direct_agrees (r : trace_reader) (trace : trace_frame)
    (buf : list Byte.byte) (buf_size : Z) (bytes : list Byte.byte)
    (size addr : Z) (r' : trace_reader) :
  read_raw_data r trace = Some (bytes, size, addr, r') ->
  size <= buf_size ->
  read_raw_data_direct r trace buf buf_size
  = {| dr_ret := size; dr_buf := bytes ++ skipn (length bytes) buf;
       dr_rec_addr := Some addr; dr_reader := r' |}.
Proof.
  unfold read_raw_data, read_raw_data_direct; destruct (r_raw r) as [|d rest];
    [discriminate|].
  destruct (Z.eqb_spec (raw_global_time d) (global_time trace)); [|discriminate].
  destruct (Z.eqb_spec (Z.of_nat (length (raw_bytes d))) (raw_size d));
    [|discriminate].
  intros H; injection H as <- <- <- <-; intros Hs.
  rewrite (proj2 (Z.leb_le _ _) Hs); reflexivity.
Qed.

(** X5: when the allocating [read_raw_data] would be fatal (no block left,
    or the next block belongs to another frame, or it was cut short),
    [read_raw_data_direct] reports -1 instead, whatever the buffer. *)
Theorem read_raw_data_direct_when_read_fatal (r : trace_reader)
    (trace : trace_frame) (buf : list Byte.byte) (buf_size : Z) :
  read_raw_data r trace = None ->
  dr_ret (read_raw_data_direct r trace buf buf_size) = -1.
Proof.
  unfold read_raw_data, read_raw_data_direct; destruct (r_raw r) as [|d rest];
    [reflexivity|].
  destruct (raw_global_time d =? global_time trace); simpl; [|reflexivity].
  destruct (Z.of_nat (length (raw_bytes d)) =? raw_size d);
    rewrite ?andb_true_r, ?andb_false_r; [discriminate|reflexivity].
Qed.

(** ** Witnesses *)

Lemma record_replay_roundtrip_witness :
  Z.of_nat (length scenario42) <= UINT32_MAX /\
  Forall (fun x => snd x <> EV_TERM_EXAMPLE) scenario42 /\
  exists w fs r,
    record_events rec_init_trace_files scenario42 = Some w /\
    read_frames EV_TERM_EXAMPLE (rep_init_trace_files w) 3 = Some (fs, r) /\
    map global_time fs = [1; 2; 3] /\
    map thread_time fs = [1; 2; 3] /\
    map tid fs = [42; 42; 42] /\
    map ev fs = [1; 2; 3] /\
    map rbc fs = map (fun x => task_rbc (fst x)) scenario42 /\
    map recorded_regs fs = map (fun x => task_regs (fst x)) scenario42.
Proof.
  assert (H1 : Z.of_nat (length scenario42) <= UINT32_MAX)
    by (unfold UINT32_MAX; simpl; lia).
  assert (H2 : Forall (fun x => snd x <> EV_TERM_EXAMPLE) scenario42)
    by (repeat constructor; simpl; unfold EV_TERM_EXAMPLE; discriminate).
  split; [exact H1|]; split; [exact H2|].
  exact (record_replay_roundtrip EV_TERM_EXAMPLE scenario42 H1 H2).
Defined.

Lemma writer_preserves_ordering_witness :
  reachable EV_TERM_EXAMPLE scenario42_terminated /\
  exists fs, w_events scenario42_terminated = encode_frames fs /\
             trace_ordered fs.
Proof.
  assert (Hr : reachable EV_TERM_EXAMPLE scenario42_terminated).
  { apply (reachable_step _ scenario42_writer).
    - apply (reachable_record_events EV_TERM_EXAMPLE scenario42
               rec_init_trace_files); [apply reachable_init | reflexivity].
    - apply (step_record_termination _ _ None); reflexivity. }
  split; [exact Hr|].
  exact (writer_preserves_ordering EV_TERM_EXAMPLE scenario42_terminated Hr).
Defined.

Lemma order_counters_in_uint32_witness :
  reachable EV_TERM_EXAMPLE scenario42_terminated /\
  exists fs,
    w_events scenario42_terminated = encode_frames fs /\
    Z.of_nat (length fs) <= UINT32_MAX /\
    Forall (fun f => 1 <= global_time f <= UINT32_MAX /\
                     1 <= thread_time f <= UINT32_MAX) fs /\
    ForallOrdPairs (fun a b => global_time a < global_time b) fs /\
    (w_global_time scenario42_terminated = UINT32_MAX ->
     forall t e, record_event scenario42_terminated t e = None).
Proof.
  assert (Hr : reachable EV_TERM_EXAMPLE scenario42_terminated).
  { apply (reachable_step _ scenario42_writer).
    - apply (reachable_record_events EV_TERM_EXAMPLE scenario42
               rec_init_trace_files); [apply reachable_init | reflexivity].
    - apply (step_record_termination _ _ None); reflexivity. }
  split; [exact Hr|].
  exact (order_counters_in_uint32 EV_TERM_EXAMPLE scenario42_terminated Hr).
Defined.

Lemma peek_then_read_witness :
  r_exhausted scenario42_reader = false /\
  r_events scenario42_reader
    = encode_frame (scenario42_frame 1) ++ skipn 32 (r_events scenario42_reader) /\
  (forall r0, peek_next_trace r0
              = option_map (fun p => (fst p, r0))
                  (read_next_trace EV_TERM_EXAMPLE r0)) /\
  peek_next_trace scenario42_reader
    = Some (scenario42_frame 1, scenario42_reader) /\
  exists r2,
    read_next_trace EV_TERM_EXAMPLE scenario42_reader
      = Some (scenario42_frame 1, r2) /\
    try_read_next_trace EV_TERM_EXAMPLE scenario42_reader
      = Some (Some (scenario42_frame 1), r2) /\
    r_events r2 = skipn 32 (r_events scenario42_reader) /\
    (forall g rest', skipn 32 (r_events scenario42_reader)
                     = encode_frame g ++ rest' ->
       is_termination_frame EV_TERM_EXAMPLE (scenario42_frame 1) = false ->
       exists r3, peek_next_trace r2 = Some (g, r2) /\
                  read_next_trace EV_TERM_EXAMPLE r2 = Some (g, r3) /\
                  r_events r3 = rest').
Proof.
  assert (Ex : r_exhausted scenario42_reader = false) by reflexivity.
  assert (Ev : r_events scenario42_reader
               = encode_frame (scenario42_frame 1)
                   ++ skipn 32 (r_events scenario42_reader))
    by (vm_compute; reflexivity).
  split; [exact Ex|]; split; [exact Ev|].
  exact (peek_then_read EV_TERM_EXAMPLE scenario42_reader (scenario42_frame 1)
           (skipn 32 (r_events scenario42_reader)) Ex Ev).
Defined.

Lemma try_read_end_vs_corruption_witness :
  r_events scenario42_reader = encode_frames scenario42_frames ++ [] /\
  r_exhausted scenario42_reader = false /\
  Forall (fun f => is_termination_frame EV_TERM_EXAMPLE f = false)
         scenario42_frames /\
  (length (@nil Z) < FRAME_WORDS)%nat /\
  (forall r0 f r0', read_next_trace EV_TERM_EXAMPLE r0 = Some (f, r0') <->
                    try_read_next_trace EV_TERM_EXAMPLE r0 = Some (Some f, r0')) /\
  exists r1,
    read_frames EV_TERM_EXAMPLE scenario42_reader (length scenario42_frames)
      = Some (scenario42_frames, r1) /\
    ((@nil Z) = [] ->
       read_next_trace EV_TERM_EXAMPLE r1 = None /\
       exists r2,
         try_read_frames EV_TERM_EXAMPLE scenario42_reader
           (S (length scenario42_frames))
           = Some (map Some scenario42_frames ++ [None], r2) /\
         try_read_next_trace EV_TERM_EXAMPLE r2 = None) /\
    ((@nil Z) <> [] ->
       read_next_trace EV_TERM_EXAMPLE r1 = None /\
       try_read_next_trace EV_TERM_EXAMPLE r1 = None /\
       try_read_frames EV_TERM_EXAMPLE scenario42_reader
         (S (length scenario42_frames)) = None).
Proof.
  assert (H1 : r_events scenario42_reader = encode_frames scenario42_frames ++ [])
    by (vm_compute; reflexivity).
  assert (H2 : r_exhausted scenario42_reader = false) by reflexivity.
  assert (H3 : Forall (fun f => is_termination_frame EV_TERM_EXAMPLE f = false)
                      scenario42_frames)
    by (repeat constructor).
  assert (H4 : (length (@nil Z) < FRAME_WORDS)%nat)
    by (unfold FRAME_WORDS; simpl; lia).
  split; [exact H1|]; split; [exact H2|]; split; [exact H3|]; split; [exact H4|].
  exact (try_read_end_vs_corruption EV_TERM_EXAMPLE scenario42_frames []
           scenario42_reader H1 H2 H3 H4).
Defined.

Lemma global_time_counts_frames_witness :
  Z.of_nat (length scenario42) <= UINT32_MAX /\
  Forall (fun x => snd x <> EV_TERM_EXAMPLE) scenario42 /\
  (forall g g', next_global_time g = Some g' -> g' = g + 1) /\
  exists w,
    record_events rec_init_trace_files scenario42 = Some w /\
    forall i, (i <= length scenario42)%nat ->
      exists fs r,
        read_frames EV_TERM_EXAMPLE (rep_init_trace_files w) i = Some (fs, r) /\
        get_global_time r = (Z.of_nat i, r).
Proof.
  assert (H1 : Z.of_nat (length scenario42) <= UINT32_MAX)
    by (unfold UINT32_MAX; simpl; lia).
  assert (H2 : Forall (fun x => snd x <> EV_TERM_EXAMPLE) scenario42)
    by (repeat constructor; simpl; unfold EV_TERM_EXAMPLE; discriminate).
  split; [exact H1|]; split; [exact H2|].
  exact (global_time_counts_frames EV_TERM_EXAMPLE scenario42 H1 H2).
Defined.

Lemma termination_frame_ends_stream_witness :
  Z.of_nat (length scenario42) < UINT32_MAX /\
  Forall (fun x => snd x <> EV_TERM_EXAMPLE) scenario42 /\
  exists w w' fs r1 f r2,
    record_events rec_init_trace_files scenario42 = Some w /\
    record_trace_termination_event EV_TERM_EXAMPLE w None = Some w' /\
    read_frames EV_TERM_EXAMPLE (rep_init_trace_files w') 3 = Some (fs, r1) /\
    read_next_trace EV_TERM_EXAMPLE r1 = Some (f, r2) /\
    is_termination_frame EV_TERM_EXAMPLE f = true /\ ev f = EV_TERM_EXAMPLE /\
    tid f = 0 /\ rbc f = 0 /\ recorded_regs f = zero_regs /\
    global_time f = 4 /\
    read_next_trace EV_TERM_EXAMPLE r2 = None /\
    try_read_next_trace EV_TERM_EXAMPLE r2 = None /\
    peek_next_trace r2 = None.
Proof.
  assert (H1 : Z.of_nat (length scenario42) < UINT32_MAX)
    by (unfold UINT32_MAX; simpl; lia).
  assert (H2 : Forall (fun x => snd x <> EV_TERM_EXAMPLE) scenario42)
    by (repeat constructor; simpl; unfold EV_TERM_EXAMPLE; discriminate).
  split; [exact H1|]; split; [exact H2|].
  exact (termination_frame_ends_stream EV_TERM_EXAMPLE scenario42 H1 H2).
Defined.

Lemma record_data_signed_len_witness :
  is_ssize_t 4 = true /\
  is_ssize_t (-1) = true /\
  (0 <= 4 <= Z.of_nat (length [Byte.x01; Byte.x02; Byte.x03; Byte.x04; Byte.x05]) ->
   exists w',
     record_data scenario42_writer task42 4194304 4
       [Byte.x01; Byte.x02; Byte.x03; Byte.x04; Byte.x05] = Some w' /\
     w_raw w' = w_raw scenario42_writer ++
                [{| raw_global_time := w_global_time scenario42_writer;
                    raw_addr := 4194304; raw_size := 4;
                    raw_bytes := firstn (Z.to_nat 4)
                      [Byte.x01; Byte.x02; Byte.x03; Byte.x04; Byte.x05] |}] /\
     length (firstn (Z.to_nat 4)
               [Byte.x01; Byte.x02; Byte.x03; Byte.x04; Byte.x05]) = Z.to_nat 4 /\
     w_events w' = w_events scenario42_writer /\
     w_mmaps w' = w_mmaps scenario42_writer /\
     w_global_time w' = w_global_time scenario42_writer) /\
  (4 < 0 -> Z.of_nat (length [Byte.x01; Byte.x02; Byte.x03; Byte.x04; Byte.x05])
            <= SSIZE_MAX ->
   record_data scenario42_writer task42 4194304 4
     [Byte.x01; Byte.x02; Byte.x03; Byte.x04; Byte.x05] = None).
Proof.
  assert (H : is_ssize_t 4 = true) by reflexivity.
  split; [exact H|].
  exact (record_data_signed_len scenario42_writer task42 4194304 4
           [Byte.x01; Byte.x02; Byte.x03; Byte.x04; Byte.x05] H).
Defined.

Lemma read_raw_data_direct_contract_witness :
  Z.of_nat (length (repeat Byte.x00 4096)) = 4096 /\
  (forall d rest,
     r_raw (rep_init_trace_files raw_scenario_writer) = d :: rest ->
     raw_global_time d = global_time (scenario42_frame 1) ->
     Z.of_nat (length (raw_bytes d)) = raw_size d -> raw_size d <= 4096 ->
     dr_ret (read_raw_data_direct (rep_init_trace_files raw_scenario_writer)
               (scenario42_frame 1) (repeat Byte.x00 4096) 4096) = raw_size d /\
     firstn (length (raw_bytes d))
       (dr_buf (read_raw_data_direct (rep_init_trace_files raw_scenario_writer)
                  (scenario42_frame 1) (repeat Byte.x00 4096) 4096))
       = raw_bytes d /\
     length (dr_buf (read_raw_data_direct (rep_init_trace_files raw_scenario_writer)
                       (scenario42_frame 1) (repeat Byte.x00 4096) 4096))
       = length (repeat Byte.x00 4096) /\
     dr_rec_addr (read_raw_data_direct (rep_init_trace_files raw_scenario_writer)
                    (scenario42_frame 1) (repeat Byte.x00 4096) 4096)
       = Some (raw_addr d) /\
     r_raw (dr_reader (read_raw_data_direct (rep_init_trace_files raw_scenario_writer)
                         (scenario42_frame 1) (repeat Byte.x00 4096) 4096)) = rest) /\
  ((r_raw (rep_init_trace_files raw_scenario_writer) = [] \/
    exists d rest, r_raw (rep_init_trace_files raw_scenario_writer) = d :: rest /\
      (raw_global_time d <> global_time (scenario42_frame 1) \/ 4096 < raw_size d \/
       Z.of_nat (length (raw_bytes d)) <> raw_size d)) ->
   read_raw_data_direct (rep_init_trace_files raw_scenario_writer)
     (scenario42_frame 1) (repeat Byte.x00 4096) 4096
   = {| dr_ret := -1; dr_buf := repeat Byte.x00 4096; dr_rec_addr := None;
        dr_reader := rep_init_trace_files raw_scenario_writer |}) /\
  (raw_scenario = Some raw_scenario_writer /\
   exists f r1,
     read_next_trace EV_TERM_EXAMPLE (rep_init_trace_files raw_scenario_writer)
       = Some (f, r1) /\
     dr_ret (read_raw_data_direct r1 f (repeat Byte.x00 4096) 4096) = 4096 /\
     dr_buf (read_raw_data_direct r1 f (repeat Byte.x00 4096) 4096) = block4096 /\
     dr_rec_addr (read_raw_data_direct r1 f (repeat Byte.x00 4096) 4096)
       = Some 4194304 /\
     dr_ret (read_raw_data_direct r1 f (repeat Byte.x00 10) 10) = -1).
Proof.
  assert (H : Z.of_nat (length (repeat Byte.x00 4096)) = 4096)
    by (rewrite repeat_length; reflexivity).
  split; [exact H|].
  exact (read_raw_data_direct_contract (rep_init_trace_files raw_scenario_writer)
           (scenario42_frame 1) (repeat Byte.x00 4096) 4096 H).
Defined.

Lemma recorded_global_time_is_position_witness :
  reachable EV_TERM_EXAMPLE scenario42_terminated /\
  exists fs,
    w_events scenario42_terminated = encode_frames fs /\
    Z.of_nat (length fs) = w_global_time scenario42_terminated /\
    map global_time fs = map Z.of_nat (seq 1 (length fs)).
Proof.
  assert (Hr : reachable EV_TERM_EXAMPLE scenario42_terminated).
  { apply (reachable_step _ scenario42_writer).
    - apply (reachable_record_events EV_TERM_EXAMPLE scenario42
               rec_init_trace_files); [apply reachable_init | reflexivity].
    - apply (step_record_termination _ _ None); reflexivity. }
  split; [exact Hr|].
  exact (recorded_global_time_is_position EV_TERM_EXAMPLE scenario42_terminated Hr).
Defined.

Lemma raw_blocks_ordered_and_whole_witness :
  reachable EV_TERM_EXAMPLE raw_scenario_writer /\
  raw_stream_ok raw_scenario_writer.
Proof.
  assert (Hr : reachable EV_TERM_EXAMPLE raw_scenario_writer).
  { apply (reachable_step _ (writer_or_fresh
             (record_event rec_init_trace_files task42 1))).
    - eapply reachable_step; [apply reachable_init|].
      apply (step_record_event _ _ task42 1); reflexivity.
    - apply (step_record_data _ _ task42 4194304 4096 block4096).
      vm_compute; reflexivity. }
  split; [exact Hr|].
  exact (raw_blocks_ordered_and_whole EV_TERM_EXAMPLE raw_scenario_writer Hr).
Defined.

Lemma read_raw_data_direct_failure_no_effect_witness :
  dr_ret (read_raw_data_direct (rep_init_trace_files raw_scenario_writer)
            (scenario42_frame 1) (repeat Byte.x00 10) 10) = -1 /\
  dr_buf (read_raw_data_direct (rep_init_trace_files raw_scenario_writer)
            (scenario42_frame 1) (repeat Byte.x00 10) 10) = repeat Byte.x00 10 /\
  dr_rec_addr (read_raw_data_direct (rep_init_trace_files raw_scenario_writer)
                 (scenario42_frame 1) (repeat Byte.x00 10) 10) = None /\
  dr_reader (read_raw_data_direct (rep_init_trace_files raw_scenario_writer)
               (scenario42_frame 1) (repeat Byte.x00 10) 10)
  = rep_init_trace_files raw_scenario_writer.
Proof.
  assert (H : dr_ret (read_raw_data_direct (rep_init_trace_files raw_scenario_writer)
                        (scenario42_frame 1) (repeat Byte.x00 10) 10) = -1)
    by (vm_compute; reflexivity).
  split; [exact H|].
  exact (read_raw_data_direct_failure_no_effect
           (rep_init_trace_files raw_scenario_writer) (scenario42_frame 1)
           (repeat Byte.x00 10) 10 H).
Defined.

Lemma read_raw_data_direct_agrees_witness :
  read_raw_data (rep_init_trace_files raw_scenario_writer) (scenario42_frame 1)
  = Some (block4096, 4096, 4194304,
          {| r_events := w_events raw_scenario_writer; r_raw := [];
             r_mmaps := []; r_global_time := 0; r_exhausted := false |}) /\
  4096 <= 4100 /\
  read_raw_data_direct (rep_init_trace_files raw_scenario_writer)
    (scenario42_frame 1) (repeat Byte.x00 4100) 4100
  = {| dr_ret := 4096;
       dr_buf := block4096 ++ skipn (length block4096) (repeat Byte.x00 4100);
       dr_rec_addr := Some 4194304;
       dr_reader := {| r_events := w_events raw_scenario_writer; r_raw := [];
                       r_mmaps := []; r_global_time := 0;
                       r_exhausted := false |} |}.
Proof.
  assert (H1 : read_raw_data (rep_init_trace_files raw_scenario_writer)
                 (scenario42_frame 1)
               = Some (block4096, 4096, 4194304,
                       {| r_events := w_events raw_scenario_writer; r_raw := [];
                          r_mmaps := []; r_global_time := 0;
                          r_exhausted := false |}))
    by (vm_compute; reflexivity).
  assert (H2 : 4096 <= 4100) by lia.
  split; [exact H1|]; split; [exact H2|].
  exact (read_raw_data_direct_agrees _ _ (repeat Byte.x00 4100) 4100 _ _ _ _ H1 H2).
Defined.

Lemma read_raw_data_direct_when_read_fatal_witness :
  read_raw_data scenario42_reader (scenario42_frame 1) = None /\
  dr_ret (read_raw_data_direct scenario42_reader (scenario42_frame 1)
            (repeat Byte.x00 16) 16) = -1.
Proof.
  assert (H : read_raw_data scenario42_reader (scenario42_frame 1) = None)
    by (vm_compute; reflexivity).
  split; [exact H|].
  exact (read_raw_data_direct_when_read_fatal _ _ (repeat Byte.x00 16) 16 H).
Defined.

Lemma mmapped_file_records_as_given_witness :
  run_writer_ops EV_TERM_EXAMPLE rec_init_trace_files mmap_session_ops
    = Some mmap_session_writer /\
  run_reader_ops EV_TERM_EXAMPLE (rep_init_trace_files mmap_session_writer)
    mmap_session_reads
    = Some (fst mmap_session_replay, snd mmap_session_replay) /\
  fst mmap_session_replay = [copied_region] /\
  r_events (snd mmap_session_replay) = [] /\
  r_mmaps (snd mmap_session_replay) = [mapped_lib] /\
  (forall w0 file,
     w_events (record_mmapped_file_stats w0 file) = w_events w0 /\
     w_raw (record_mmapped_file_stats w0 file) = w_raw w0 /\
     w_global_time (record_mmapped_file_stats w0 file) = w_global_time w0 /\
     w_thread_time (record_mmapped_file_stats w0 file) = w_thread_time w0 /\
     w_mmaps (record_mmapped_file_stats w0 file) = w_mmaps w0 ++ [file]) /\
  w_mmaps mmap_session_writer = mmaps_of mmap_session_ops /\
  fst mmap_session_replay ++ r_mmaps (snd mmap_session_replay)
    = mmaps_of mmap_session_ops /\
  exists r',
    read_mmapped_files (snd mmap_session_replay)
      (length (r_mmaps (snd mmap_session_replay)))
      = Some (r_mmaps (snd mmap_session_replay), r') /\
    r_events r' = r_events (snd mmap_session_replay) /\
    r_raw r' = r_raw (snd mmap_session_replay) /\
    r_global_time r' = r_global_time (snd mmap_session_replay).
Proof.
  assert (Hw : run_writer_ops EV_TERM_EXAMPLE rec_init_trace_files
                 mmap_session_ops = Some mmap_session_writer)
    by (vm_compute; reflexivity).
  assert (Hr : run_reader_ops EV_TERM_EXAMPLE
                 (rep_init_trace_files mmap_session_writer) mmap_session_reads
               = Some (fst mmap_session_replay, snd mmap_session_replay))
    by (vm_compute; reflexivity).
  split; [exact Hw|]; split; [exact Hr|].
  split; [vm_compute; reflexivity|]; split; [vm_compute; reflexivity|].
  split; [vm_compute; reflexivity|].
  exact (mmapped_file_records_as_given EV_TERM_EXAMPLE mmap_session_ops
           mmap_session_writer mmap_session_reads _ _ Hw Hr).
Defined.
